(** * launch: the application registry (DbManager)

    A shallow embedding of [DbManager] (dbmanager.h / dbmanager.cpp): the
    SQLite table [applications(path TEXT PRIMARY KEY)], the [can-open]
    capability lookup and the per-path reconciliation [handleApplication].

    The C++ code talks to three collaborators: the SQL engine (through
    [QSqlQuery]), the file system ([QDir], [QFileInfo], [QFile]) and the
    extended-attribute helpers of [extattrs.h].  They are modelled as an
    explicit [World] that every member function transforms, together with
    the list of collaborator calls the invocation made. *)

From Stdlib Require Import Ascii String NArith.
From stdpp Require Import base tactics option list gmap strings.

Local Open Scope string_scope.
Local Open Scope list_scope.

(** ** Text *)

(** [QString] is a sequence of code units that is either null or not; the
    empty string is not null, [QString()] is.  Code units are modelled
    as [ascii], which covers the paths, keys and desktop-entry text the
    program compares against. *)
Module Text.

Definition chars (s : string) : list ascii := list_ascii_of_string s.
Definition text (l : list ascii) : string := string_of_list_ascii l.

(** [QChar::isSpace]: U+0020, U+0009..U+000D, U+0085 and U+00A0. *)
Definition isSpace (c : ascii) : bool :=
  let n := N_of_ascii c in
  (n =? 32)%N || ((9 <=? n)%N && (n <=? 13)%N) || (n =? 133)%N || (n =? 160)%N.

(** [QString::startsWith(pre)], case sensitive. *)
Fixpoint starts (pre s : list ascii) : bool :=
  match pre, s with
  | [], _ => true
  | _ :: _, [] => false
  | a :: pre', b :: s' => Ascii.eqb a b && starts pre' s'
  end.

Definition startsWith (s pre : string) : bool := starts (chars pre) (chars s).

(** [QString::endsWith(suf)], case sensitive: the last [|suf|] code units
    of [s] are those of [suf]. *)
Definition endsWith (s suf : string) : bool :=
  starts (reverse (chars suf)) (reverse (chars s)).

(** [QString::remove(pos, n)] for a position inside the string. *)
Definition remove (pos n : nat) (s : string) : string :=
  text (take pos (chars s) ++ drop (pos + n) (chars s)).

Fixpoint dropSpaces (l : list ascii) : list ascii :=
  match l with
  | c :: l' => if isSpace c then dropSpaces l' else l
  | [] => []
  end.

(** [QString::trimmed()]: white space removed from both ends. *)
Definition trimmed (s : string) : string :=
  text (reverse (dropSpaces (reverse (dropSpaces (chars s))))).

(** ASCII lower-casing of one code unit, as SQLite folds case in [LIKE]. *)
Definition lower (c : ascii) : ascii :=
  let n := N_of_ascii c in
  if (65 <=? n)%N && (n <=? 90)%N then ascii_of_N (n + 32) else c.

(** The string with its ASCII letters in lower case. *)
Definition toLower (s : string) : string := text (lower <$> chars s).

Definition NL : ascii := ascii_of_N 10.

(** The lines a [QTextStream] yields with [while (!in.atEnd()) readLine()]:
    the text is cut at every line feed, and a line feed that ends the text
    does not open a further (empty) line.  A carriage return before the
    line feed is left to [trimmed], which the caller applies to every
    line. *)
Fixpoint splitLines (cur : list ascii) (l : list ascii) : list string :=
  match l with
  | [] => match cur with [] => [] | _ => [text (reverse cur)] end
  | c :: l' =>
      if Ascii.eqb c NL then text (reverse cur) :: splitLines [] l'
      else splitLines (c :: cur) l'
  end.

Definition readLines (content : string) : list string :=
  splitLines [] (chars content).

End Text.

Inductive QString : Type :=
| QNull                (* QString() *)
| QS (s : string).     (* a string with storage, possibly of length 0 *)

Definition isNull (q : QString) : bool :=
  match q with QNull => true | QS _ => false end.

Definition toStd (q : QString) : string :=
  match q with QNull => EmptyString | QS s => s end.

Definition isEmpty (q : QString) : bool := String.eqb (toStd q) EmptyString.

(** [operator==] compares the code units only: a null string equals the empty one. *)
Definition qeq (a b : QString) : bool := String.eqb (toStd a) (toStd b).

(** ** The SQL engine *)

(** The statements the program prepares, and what SQLite does with them on
    the one table the program has.  The table is absent until
    [CREATE TABLE] has run; its rows are kept in the order a scan of the
    table returns them, a new row coming last. *)
Module Sql.
Import Text.

(** SQLite's [LIKE]: [%] matches any run of characters, [_] any single
    one, every other character matches itself with ASCII letters compared
    without regard to case. *)
Fixpoint like (pat s : list ascii) : bool :=
  match pat with
  | [] => match s with [] => true | _ :: _ => false end
  | p :: pat' =>
      if Ascii.eqb p "%" then
        (fix any (s : list ascii) : bool :=
           like pat' s || match s with [] => false | _ :: s' => any s' end) s
      else
        match s with
        | [] => false
        | c :: s' =>
            (Ascii.eqb p "_" || Ascii.eqb (lower p) (lower c)) && like pat' s'
        end
  end.

Definition LIKE (s pat : string) : bool := like (chars pat) (chars s).

(** A pattern character that stands for itself. *)
Definition plain (c : ascii) : Prop := c <> "%"%char /\ c <> "_"%char.

Inductive Stmt : Type :=
| CreateTable                      (* CREATE TABLE applications(path TEXT PRIMARY KEY); *)
| Insert (path : string)           (* INSERT INTO applications (path) VALUES (:path) *)
| Delete (path : string)           (* DELETE FROM applications WHERE path = (:path) *)
| DeleteAll                        (* DELETE FROM applications *)
| SelectPath (path : string)       (* SELECT path FROM applications WHERE path = (:path) *)
| DeleteNull                       (* the DELETE above with NULL bound to :path *)
| SelectPathNull                   (* the SELECT above with NULL bound to :path *)
| SelectNotLike (pat : string)     (* SELECT * FROM applications WHERE path NOT LIKE pat *)
| SelectLike (pat : string).       (* SELECT * FROM applications WHERE path LIKE pat *)

Definition Table : Type := option (list string).

Definition samePath (path : string) (row : string) : bool := String.eqb row path.

(** [run q t] is [None] when the statement is in error (no such table, the
    table exists already, the primary key is taken); otherwise the rows
    the statement returns and the table it leaves. *)
Definition run (q : Stmt) (t : Table) : option (list string * Table) :=
  match q, t with
  | CreateTable, None => Some ([], Some [])
  | CreateTable, Some _ => None
  | _, None => None
  | Insert path, Some rows =>
      if existsb (samePath path) rows then None else Some ([], Some (rows ++ [path]))
  | Delete path, Some rows =>
      Some ([], Some (List.filter (fun row => negb (samePath path row)) rows))
  | DeleteAll, Some rows => Some ([], Some [])
  | SelectPath path, Some rows => Some (List.filter (samePath path) rows, t)
  | DeleteNull, Some rows => Some ([], t)          (* no row equals NULL *)
  | SelectPathNull, Some rows => Some ([], t)
  | SelectNotLike pat, Some rows =>
      Some (List.filter (fun row => negb (LIKE row pat)) rows, t)
  | SelectLike pat, Some rows =>
      Some (List.filter (fun row => LIKE row pat) rows, t)
  end.

End Sql.

(** ** The world around a [DbManager] *)

(** What the Qt file classes report. *)
Record FileSystem : Type := {
  canonicalPath : string -> string;   (* the text of QDir(path).canonicalPath(); empty for the null string *)
  isDir : string -> bool;             (* QFileInfo(path).isDir() *)
  isFile : string -> bool;            (* QFileInfo(path).isFile() *)
  fileText : string -> option string; (* the text a QTextStream reads, if QFile::open succeeds *)
  takesExtattr : string -> bool       (* whether an attribute can be set on the path *)
}.

(** The calls an invocation makes to its collaborators. *)
Inductive Event : Type :=
| EvSql (q : Sql.Stmt) (ok : bool)       (* a statement was executed; [ok] is exec()'s result *)
| EvOpenFile (path : string)             (* QFile::open *)
| EvGetAttr (path key : string)          (* Fm::getAttributeValueQString *)
| EvSetAttr (path key value : string).   (* Fm::setAttributeValueQString *)

Record World : Type := {
  fs : FileSystem;
  table : Sql.Table;                       (* the applications table of launch.db *)
  backend : list bool;                     (* whether the engine takes the next statements *)
  xattrs : gmap (string * string) string;  (* extended attributes, by path and name *)
  filesystemSupportsExtattr : bool         (* the member set by the constructor *)
}.

Definition withTable (t : Sql.Table) (w : World) : World :=
  {| fs := fs w; table := t; backend := backend w; xattrs := xattrs w;
     filesystemSupportsExtattr := filesystemSupportsExtattr w |}.

Definition withBackend (b : list bool) (w : World) : World :=
  {| fs := fs w; table := table w; backend := b; xattrs := xattrs w;
     filesystemSupportsExtattr := filesystemSupportsExtattr w |}.

Definition withXattrs (x : gmap (string * string) string) (w : World) : World :=
  {| fs := fs w; table := table w; backend := backend w; xattrs := x;
     filesystemSupportsExtattr := filesystemSupportsExtattr w |}.

(** A member function: from the world before the call to its result, the
    world after it and the collaborator calls it made, in order. *)
Definition M (A : Type) : Type := World -> A * World * list Event.

Definition ret {A} (a : A) : M A := fun w => (a, w, []).

Definition bind {A B} (m : M A) (k : A -> M B) : M B :=
  fun w =>
    let '(a, w1, e1) := m w in
    let '(b, w2, e2) := k a w1 in
    (b, w2, e1 ++ e2).

Notation "'do' x <- m ; k" := (bind m (fun x => k))
  (at level 10, x name, m at level 100, k at level 200, only parsing).

Definition result {A} (r : A * World * list Event) : A := r.1.1.
Definition after {A} (r : A * World * list Event) : World := r.1.2.
Definition calls {A} (r : A * World * list Event) : list Event := r.2.

(** Whether the engine takes the next statement.  It may refuse one
    whatever it says (the connection is not open, the database is locked,
    the disk fails); [backend] holds its answers for the statements to come
    and an exhausted list means a willing engine. *)
Definition willing (w : World) : bool :=
  match backend w with [] => true | b :: _ => b end.

(** [QSqlQuery::exec]: a statement the engine takes is run on the table.
    The result is the rows returned, or [None] when [exec()] returns
    false. *)
Definition exec (q : Sql.Stmt) : M (option (list string)) :=
  fun w =>
    let w1 := withBackend (tail (backend w)) w in
    if willing w then
      match Sql.run q (table w) with
      | Some (rows, t) => (Some rows, withTable t w1, [EvSql q true])
      | None => (None, w1, [EvSql q false])
      end
    else (None, w1, [EvSql q false]).

Definition stat {A} (f : FileSystem -> A) : M A := fun w => (f (fs w), w, []).

(** Reading a member of the object. *)
Definition member {A} (f : World -> A) : M A := fun w => (f w, w, []).

Definition openFile (path : string) : M (option string) :=
  fun w => (fileText (fs w) path, w, [EvOpenFile path]).

(** Modelled from the spec: the extended-attribute helpers of [extattrs.h]
    are not part of the sources at hand.  Reading an attribute gives its
    value and [ok = true] exactly when the attribute is there; [ok = false]
    means the attribute is absent or the file system has none. *)
Definition getAttributeValueQString (path key : string) : M (QString * bool) :=
  fun w =>
    match xattrs w !! (path, key) with
    | Some v => ((QS v, true), w, [EvGetAttr path key])
    | None => ((QNull, false), w, [EvGetAttr path key])
    end.

(** Modelled from the spec: setting an attribute reports whether the file
    system took it. *)
Definition setAttributeValueQString (path key : string) (value : QString) : M bool :=
  fun w =>
    if takesExtattr (fs w) path then
      (true, withXattrs (<[(path, key) := toStd value]> (xattrs w)) w,
       [EvSetAttr path key (toStd value)])
    else (false, w, [EvSetAttr path key (toStd value)]).

(** ** DbManager *)

Definition executed (r : option (list string)) : bool :=
  match r with Some _ => true | None => false end.

(** [query.next()] on a fresh query: is there a first row? *)
Definition next (r : option (list string)) : bool :=
  match r with Some (_ :: _) => true | _ => false end.

(** The rows [while (query.next())] walks through. *)
Definition fetched (r : option (list string)) : list string :=
  match r with Some rows => rows | None => [] end.

Definition _createTable : M bool :=
  let success := false in
  do r <- exec Sql.CreateTable;
  ret (if negb (executed r) then false else success).

Definition applicationExists (path : string) : M bool :=
  let exists_ := false in
  do r <- exec (Sql.SelectPath path);
  ret (if executed r then (if next r then true else exists_) else exists_).

Definition _addApplication (path : string) : M bool :=
  let success := false in
  if negb (String.eqb path EmptyString) then
    do r <- exec (Sql.Insert path);
    ret (if executed r then true else success)
  else ret success.

Definition _removeApplication (path : string) : M bool :=
  let success := false in
  do e <- applicationExists path;
  if e then
    do r <- exec (Sql.Delete path);
    ret (executed r)
  else ret success.

Definition removeAllApplications : M bool :=
  let success := false in
  do r <- exec Sql.DeleteAll;
  ret (if executed r then true else success).

(** Two queries, run when they are constructed: everything but the
    [.desktop] rows, then the [.desktop] rows. *)
Definition allApplications : M (list string) :=
  let results := [] in
  do query <- exec (Sql.SelectNotLike "%.desktop");
  let results := results ++ fetched query in
  do query2 <- exec (Sql.SelectLike "%.desktop");
  let results := results ++ fetched query2 in
  ret results.

(** [QTextStream::readAll]: the text read, which is the null string when
    nothing was read. *)
Definition readAll (content : string) : QString :=
  if String.eqb content EmptyString then QNull else QS content.

(** The value [bindValue(":path", path)] gives the statement: a null
    [QString] is bound as NULL. *)
Definition selectPath (path : QString) : Sql.Stmt :=
  match path with QNull => Sql.SelectPathNull | QS p => Sql.SelectPath p end.

Definition deletePath (path : QString) : Sql.Stmt :=
  match path with QNull => Sql.DeleteNull | QS p => Sql.Delete p end.

(** [applicationExists] and [_removeApplication] as [handleApplication]
    calls them, with a [QString] that may be null; on a string that is not
    null they are the two functions above. *)
Definition applicationExistsQ (path : QString) : M bool :=
  let exists_ := false in
  do r <- exec (selectPath path);
  ret (if executed r then (if next r then true else exists_) else exists_).

Definition _removeApplicationQ (path : QString) : M bool :=
  let success := false in
  do e <- applicationExistsQ path;
  if e then
    do r <- exec (deletePath path);
    ret (executed r)
  else ret success.

(** [QDir::canonicalPath] gives the null string for a path that does not
    resolve; the file system of the model writes it as the empty string. *)
Definition canonicalQString (canonical : string) : QString :=
  if String.eqb canonical EmptyString then QNull else QS canonical.

(** One turn of the [readLine] loop of the desktop-entry scan. *)
Definition scanLine (mime : string) (line : string) : string :=
  let getLine := Text.trimmed line in
  if Text.startsWith getLine "MimeType=" then Text.remove 0 9 getLine else mime.

Definition getCanOpenFromFile (canonicalPath : string) : M QString :=
  if Text.endsWith canonicalPath ".app" then
    let canOpenFilePath := String.append canonicalPath "/Resources/can-open" in
    do there <- stat (fun f => isFile f canOpenFilePath);
    if negb there then ret QNull
    else
      do f <- openFile canOpenFilePath;
      match f with
      | None => ret QNull
      | Some content => ret (readAll content)             (* in.readAll() *)
      end
  else if Text.endsWith canonicalPath ".desktop" then
    do a <- getAttributeValueQString canonicalPath "can-open";
    if a.2 then ret QNull                                  (* extattr is already set *)
    else
      let mime := EmptyString in
      do f <- openFile canonicalPath;
      match f with
      | Some content => ret (QS (fold_left scanLine (Text.readLines content) mime))
      | None => ret (QS mime)
      end
  else ret QNull.

Definition handleApplication (path : string) : M unit :=
  do canonical <- stat (fun f => canonicalPath f path);
  do dir <- stat (fun f => isDir f canonical);
  do file <- stat (fun f => isFile f canonical);
  if negb (dir || file) then
    do _r <- _removeApplicationQ (canonicalQString canonical);
    ret tt
  else
    do _r <- _addApplication canonical;
    do supported <- member filesystemSupportsExtattr;
    if negb supported then ret tt
    else
      do a <- getAttributeValueQString canonical "can-open";
      if a.2 then ret tt                                   (* extattr is already set *)
      else
        do mime <- getCanOpenFromFile canonical;
        if isEmpty mime then ret tt
        else if qeq mime (QS EmptyString) then ret tt
        else
          do _ok <- setAttributeValueQString canonical "can-open" mime;
          ret tt.

(** ** Reading the calls of an invocation *)

Definition failed (e : Event) : bool :=
  match e with EvSql _ false => true | _ => false end.

Definition isDeleteRow (e : Event) : bool :=
  match e with
  | EvSql (Sql.Delete _) _ | EvSql Sql.DeleteNull _ => true
  | _ => false
  end.

Definition isCacheWrite (e : Event) : bool :=
  match e with EvSetAttr _ _ _ => true | _ => false end.

(** Calls that belong to capability resolution: reading a capability source
    or touching the attribute store. *)
Definition isCapabilityCall (e : Event) : bool :=
  match e with EvSql _ _ => false | _ => true end.

(** No statement of the invocation failed. *)
Definition allExecuted (es : list Event) : bool :=
  forallb (fun e => negb (failed e)) es.

(** Every [DELETE ... WHERE path] the invocation ran was executed. *)
Definition deleteExecuted (es : list Event) : bool :=
  forallb (fun e => negb (isDeleteRow e && failed e)) es.

Definition cacheWrites (es : list Event) : nat :=
  length (List.filter isCacheWrite es).

(** The marker of a path: its [can-open] attribute. *)
Definition marker (w : World) (path : string) : option string :=
  xattrs w !! (path, "can-open").

(** A path is live when it is a directory or a file. *)
Definition live (w : World) (path : string) : bool :=
  isDir (fs w) path || isFile (fs w) path.

(** Each path occurs at most once in the applications table. *)
Definition uniquePaths (w : World) : Prop :=
  forall rows, table w = Some rows -> NoDup rows.

(** The public and private operations, as a caller may sequence them. *)
Inductive Op : Type :=
| CallCreateTable
| CallAdd (path : string)
| CallRemove (path : string)
| CallRemoveAll
| CallExists (path : string)
| CallAll
| CallHandle (path : string).

Definition step (w : World) (o : Op) : World :=
  match o with
  | CallCreateTable => after (_createTable w)
  | CallAdd path => after (_addApplication path w)
  | CallRemove path => after (_removeApplication path w)
  | CallRemoveAll => after (removeAllApplications w)
  | CallExists path => after (applicationExists path w)
  | CallAll => after (allApplications w)
  | CallHandle path => after (handleApplication path w)
  end.

Definition steps (ops : list Op) (w : World) : World := fold_left step ops w.

(** ** Vocabulary of the properties *)

(** A listing in two passes: the rows that are not [second], then those
    that are, each pass in the order of the table. *)
Definition twoPass (second : string -> bool) (rows : list string) : list string :=
  List.filter (fun path => negb (second path)) rows ++ List.filter second rows.

(** The path ends in [.desktop], letter for letter. *)
Definition endsDesktop (path : string) : bool := Text.endsWith path ".desktop".

(** The path ends in [.desktop] when ASCII letters are compared without
    regard to case. *)
Definition desktopRow (path : string) : bool :=
  Text.endsWith (Text.toLower path) ".desktop".

(** The desktop entry at [path] declares no [MimeType=] line, or cannot be
    opened. *)
Definition noMimeType (w : World) (path : string) : Prop :=
  forall content,
    fileText (fs w) path = Some content ->
    Forall (fun line => Text.startsWith (Text.trimmed line) "MimeType=" = false)
           (Text.readLines content).

(** The sidecar file of a bundle. *)
Definition sidecar (bundle : string) : string :=
  String.append bundle "/Resources/can-open".

(** Only the engine was called. *)
Definition sqlOnly (es : list Event) : bool :=
  forallb (fun e => negb (isCapabilityCall e)) es.

(** ** A small disk to run the code on *)

Module Example.

Definition nl : string := String Text.NL EmptyString.

Definition desktopEntry : string :=
  "[Desktop Entry]" +:+ nl +:+ "MimeType=text/plain;" +:+ nl +:+
  "  MimeType=image/png;  " +:+ nl +:+ "Name=Viewer" +:+ nl.

Definition twoLines : string :=
  "MimeType=text/plain;" +:+ nl +:+ "MimeType=image/png;" +:+ nl.

Definition files : list (string * string) :=
  [("/a/x.desktop", twoLines);
   ("/a/v.desktop", desktopEntry);
   ("/a/n.desktop", "[Desktop Entry]" +:+ nl +:+ "Name=Nothing" +:+ nl);
   ("/a/y.app/Resources/can-open", "text/plain" +:+ nl)].

Definition dirs : list string := ["/a"; "/a/y.app"; "/a/y.app/Resources"].

Definition lookupFile (path : string) : option string :=
  snd <$> List.find (fun f => String.eqb f.1 path) files.

(** [/a/old.desktop] still resolves but is neither a directory nor a
    file any more; every other path that is not on the disk does not
    resolve: [QDir::canonicalPath] gives the null string, whose text is
    empty. *)
Definition disk : FileSystem := {|
  canonicalPath := fun path =>
    if existsb (String.eqb path) ("/a/old.desktop" :: dirs) then path
    else match lookupFile path with Some _ => path | None => EmptyString end;
  isDir := fun path => existsb (String.eqb path) dirs;
  isFile := fun path => match lookupFile path with Some _ => true | None => false end;
  fileText := lookupFile;
  takesExtattr := fun _ => true
|}.

Definition world (t : Sql.Table) (answers : list bool)
    (attrs : gmap (string * string) string) : World :=
  {| fs := disk; table := t; backend := answers; xattrs := attrs;
     filesystemSupportsExtattr := true |}.

End Example.


(** ** What the member functions leave alone *)

(** Whether the lookup of [applicationExists] finds the path: the engine
    takes the statement and the table has the row. *)
Definition found (path : string) (w : World) : bool :=
  willing w &&
  match table w with
  | Some rows => existsb (Sql.samePath path) rows
  | None => false
  end.

(** A member function that touches nothing but the table and the engine. *)
Definition storeOnly {A} (m : M A) : Prop :=
  forall w,
    fs (after (m w)) = fs w /\
    xattrs (after (m w)) = xattrs w /\
    filesystemSupportsExtattr (after (m w)) = filesystemSupportsExtattr w /\
    sqlOnly (calls (m w)) = true.

(** A member function that keeps the paths of the table distinct. *)
Definition keepsUnique {A} (m : M A) : Prop :=
  forall w, uniquePaths w -> uniquePaths (after (m w)).

Arguments cacheWrites : simpl never.

(** ** The rest of the class *)

(** The query that counts the rows of [applications], run when it is
    constructed; the statement is not one of [Sql.Stmt] and its call is not
    logged.  A query that was executed has one row, whose 64-bit count
    [toInt()] and the return type narrow to 32 bits; a query that failed
    has none and the function returns 0. *)
Definition _numberOfApplications (w : World) : N * World :=
  let w1 := withBackend (tail (backend w)) w in
  if willing w then
    match table w with
    | Some rows => ((N.of_nat (length rows) mod 2 ^ 32)%N, w1)
    | None => (0%N, w1)
    end
  else (0%N, w1).

(** The part of [handleApplication] that follows [_addApplication]. *)
Definition cacheCapability (canonical : string) : M unit :=
  do supported <- member filesystemSupportsExtattr;
  if negb supported then ret tt
  else
    do a <- getAttributeValueQString canonical "can-open";
    if a.2 then ret tt
    else
      do mime <- getCanOpenFromFile canonical;
      if isEmpty mime then ret tt
      else if qeq mime (QS EmptyString) then ret tt
      else
        do _ok <- setAttributeValueQString canonical "can-open" mime;
        ret tt.

(** Calls that only read: opening a file, reading an attribute. *)
Definition isRead (e : Event) : bool :=
  match e with EvOpenFile _ | EvGetAttr _ _ => true | _ => false end.

(** Whether [handleApplication] on a live path goes as far as the setter:
    attributes are supported, the marker is absent and the capability
    lookup finds something. *)
Definition wantsWrite (w : World) (c : string) : bool :=
  filesystemSupportsExtattr w && negb (bool_decide (is_Some (marker w c))) &&
  negb (isEmpty (result (getCanOpenFromFile c w))).

(** * Properties *)

(** ** Text and patterns *)

Section TextFacts.
Import Text.

Lemma chars_text l : chars (text l) = l.
Proof. apply list_ascii_of_string_of_list_ascii. Qed.

Lemma text_chars s : text (chars s) = s.
Proof. apply string_of_list_ascii_of_string. Qed.

Lemma text_app a b : text (a ++ b) = text a +:+ text b.
Proof. unfold text. induction a as [|c a IH]; [done|]. cbn. by rewrite IH. Qed.

Lemma starts_prefix pre s : starts pre s = true <-> exists r, s = pre ++ r.
Proof.
  revert s. induction pre as [|a pre IH]; intros s; simpl.
  - split; [eauto | done].
  - destruct s as [|b s].
    + split; [done | intros [r Hr]; discriminate].
    + rewrite andb_true_iff, IH, Ascii.eqb_eq. split.
      * intros [-> [r ->]]. eauto.
      * intros [r Hr]. injection Hr as -> ->. eauto.
Qed.

Lemma endsWith_suffix s suf :
  endsWith s suf = true <-> exists front, chars s = front ++ chars suf.
Proof.
  unfold endsWith. rewrite starts_prefix. split.
  - intros [r Hr]. exists (reverse r).
    apply (inj reverse). by rewrite reverse_app, reverse_involutive.
  - intros [front Hf]. exists (reverse front). by rewrite Hf, reverse_app.
Qed.

(** The dispatch of [getCanOpenFromFile] tests [.app] first; a desktop
    entry never takes that branch. *)
Lemma endsWith_desktop_not_app p :
  endsWith p ".desktop" = true -> endsWith p ".app" = false.
Proof.
  unfold endsWith. intros [r1 H1]%starts_prefix.
  destruct (starts _ _) eqn:E; [|done].
  apply starts_prefix in E as [r2 H2]. rewrite H1 in H2. discriminate H2.
Qed.

(** What [remove(0, n)] leaves of a string that starts with an [n]-unit
    prefix is the rest of the string. *)
Lemma remove_prefix s pre :
  startsWith s pre = true -> s = pre +:+ remove 0 (length (chars pre)) s.
Proof.
  unfold startsWith, remove. intros [r Hr]%starts_prefix.
  transitivity (text (chars s)); [by rewrite text_chars|].
  rewrite Hr, take_0. cbn [Nat.add app].
  by rewrite drop_app_length, text_app, text_chars.
Qed.

Lemma like_percent_cons pat c s :
  Sql.like ("%"%char :: pat) (c :: s) =
  Sql.like pat (c :: s) || Sql.like ("%"%char :: pat) s.
Proof. reflexivity. Qed.

(** A leading [%] lets the rest of the pattern match any tail of the text. *)
Lemma like_percent pat s :
  Sql.like ("%"%char :: pat) s = true <->
  exists front back, s = front ++ back /\ Sql.like pat back = true.
Proof.
  induction s as [|c s IH].
  - change (Sql.like ("%"%char :: pat) []) with (Sql.like pat [] || false).
    rewrite orb_false_r. split.
    + intros H. by exists [], [].
    + intros (front & back & Hs & H). symmetry in Hs.
      apply app_eq_nil in Hs as [-> ->]. done.
  - rewrite like_percent_cons, orb_true_iff, IH. split.
    + intros [H | (front & back & -> & H)].
      * by exists [], (c :: s).
      * by exists (c :: front), back.
    + intros (front & back & Hs & H). destruct front as [|c' front].
      * left. simpl in Hs. by subst back.
      * right. injection Hs as -> ->. eauto.
Qed.

(** A pattern without wild cards matches the texts equal to it up to the
    case of ASCII letters. *)
Lemma like_plain lit s :
  Forall Sql.plain lit ->
  Sql.like lit s = true <-> lower <$> lit = lower <$> s.
Proof.
  intros Hlit. revert s. induction Hlit as [|p lit [Hp1 Hp2] _ IH]; intros s.
  - destruct s; simpl; split; done.
  - cbn [Sql.like]. apply Ascii.eqb_neq in Hp1, Hp2. rewrite Hp1, Hp2.
    destruct s as [|c s]; [split; done|].
    rewrite orb_false_l, andb_true_iff, IH, Ascii.eqb_eq. cbn. split.
    + by intros [-> ->].
    + intros H. by injection H.
Qed.

(** The pattern of [allApplications] selects the paths that end in
    [.desktop] in any mix of upper and lower case. *)
Lemma LIKE_desktop path :
  Sql.LIKE path "%.desktop" = desktopRow path.
Proof.
  apply eq_true_iff_eq. unfold Sql.LIKE, desktopRow, toLower.
  rewrite endsWith_suffix, chars_text.
  change (chars "%.desktop") with ("%"%char :: chars ".desktop").
  rewrite like_percent. split.
  - intros (front & back & -> & H). apply like_plain in H.
    + exists (lower <$> front). by rewrite fmap_app, <- H.
    + repeat constructor; discriminate.
  - intros [front H].
    exists (take (length front) (chars path)), (drop (length front) (chars path)).
    split; [by rewrite take_drop|]. apply like_plain.
    + repeat constructor; discriminate.
    + by rewrite fmap_drop, H, drop_app_length.
Qed.

End TextFacts.

Arguments Sql.LIKE : simpl never.
Arguments Text.endsWith : simpl never.
Arguments Text.startsWith : simpl never.
Arguments Text.trimmed : simpl never.
Arguments Text.remove : simpl never.
Arguments Text.readLines : simpl never.
Arguments Text.toLower : simpl never.

(** ** Statements *)

(** What a statement can do: it is executed on the table by a willing
    engine, or it fails and leaves the table as it was. *)
Lemma exec_cases q w :
  (willing w = true /\
   exists rows t, Sql.run q (table w) = Some (rows, t) /\
     exec q w = (Some rows, withTable t (withBackend (tail (backend w)) w),
                 [EvSql q true])) \/
  ((willing w = false \/ Sql.run q (table w) = None) /\
   exec q w = (None, withBackend (tail (backend w)) w, [EvSql q false])).
Proof.
  unfold exec. destruct (willing w); [|by right; split; [left|]].
  destruct (Sql.run q (table w)) as [[rows t]|].
  - left. split; [done|]. by exists rows, t.
  - right. by split; [right|].
Qed.

Ltac exec_case q w H :=
  let rows := fresh "rows" in
  let t := fresh "t" in
  let Hw := fresh "Hwilling" in
  let He := fresh "Hexec" in
  destruct (exec_cases q w) as [(Hw & rows & t & H & He) | (H & He)];
  rewrite He; clear He; cbn in H |- *.

Lemma samePath_eq path row : Sql.samePath path row = true <-> row = path.
Proof. apply String.eqb_eq. Qed.

Lemma existsb_samePath path rows :
  existsb (Sql.samePath path) rows = true <-> path ∈ rows.
Proof.
  rewrite existsb_exists. setoid_rewrite samePath_eq. split.
  - intros (row & Hin & ->). by apply list_elem_of_In.
  - intros Hin. exists path. by rewrite <- list_elem_of_In.
Qed.

Lemma next_selected path rows :
  next (Some (List.filter (Sql.samePath path) rows)) =
  existsb (Sql.samePath path) rows.
Proof.
  induction rows as [|row rows IH]; [done|].
  cbn [List.filter existsb]. destruct (Sql.samePath path row); [done|].
  by rewrite IH.
Qed.

Lemma not_in_deleted path rows :
  path ∉ List.filter (fun row => negb (Sql.samePath path row)) rows.
Proof.
  rewrite list_elem_of_In, filter_In. intros [_ H].
  apply negb_true_iff in H. by rewrite (proj2 (samePath_eq path path)) in H.
Qed.

Lemma twoPass_perm second rows : twoPass second rows ≡ₚ rows.
Proof.
  unfold twoPass. induction rows as [|row rows IH]; [done|].
  simpl. destruct (second row); simpl.
  - by rewrite <- Permutation_middle, IH.
  - by rewrite IH.
Qed.

(** In a listing in two passes no row of the second kind comes before a
    row of the first. *)
Lemma twoPass_boundary second (rows : list string) i j p q :
  twoPass second rows !! i = Some p ->
  twoPass second rows !! j = Some q ->
  second p = false -> second q = true -> i < j.
Proof.
  unfold twoPass. intros Hi Hj Hp Hq.
  apply lookup_app_Some in Hi as [Hi | [_ Hi]].
  2: { apply list_elem_of_lookup_2, list_elem_of_In, filter_In in Hi as [_ Hi].
       rewrite Hp in Hi. discriminate Hi. }
  apply lookup_lt_Some in Hi.
  apply lookup_app_Some in Hj as [Hj | [Hj _]]; [|lia].
  apply list_elem_of_lookup_2, list_elem_of_In, filter_In in Hj as [_ Hj].
  rewrite Hq in Hj. discriminate Hj.
Qed.

(** A statement that runs keeps the paths of the table distinct: the
    primary key turns a second insertion of a path down. *)
Lemma run_unique q t rows t' :
  Sql.run q t = Some (rows, t') ->
  (forall rs, t = Some rs -> NoDup rs) ->
  forall rs, t' = Some rs -> NoDup rs.
Proof.
  intros Hrun Hu rs ->.
  destruct q, t as [rows0|]; cbn in Hrun; try discriminate;
    try (injection Hrun as _ <-; by apply Hu);
    try (injection Hrun as _ <-; by apply NoDup_nil).
  - destruct (existsb _ _) eqn:Hin; [done|]. injection Hrun as _ <-.
    apply not_true_iff_false in Hin. rewrite existsb_samePath in Hin.
    apply NoDup_app. split; [by apply Hu|]. split; [|apply NoDup_singleton].
    intros x Hx ->%list_elem_of_singleton. done.
  - injection Hrun as _ <-.
    apply NoDup_ListNoDup, List.NoDup_filter, NoDup_ListNoDup. by apply Hu.
Qed.

(** ** The registry store *)

Lemma applicationExists_eq path w :
  applicationExists path w =
    (found path w, withBackend (tail (backend w)) w,
     [EvSql (Sql.SelectPath path) (willing w && bool_decide (is_Some (table w)))]).
Proof.
  unfold applicationExists, bind, exec, found.
  destruct (willing w); [|done].
  destruct w as [f [rows|] b x s]; cbn; [|done].
  change (match List.filter (Sql.samePath path) rows with [] => false | _ :: _ => true end)
    with (next (Some (List.filter (Sql.samePath path) rows))).
  rewrite next_selected. by destruct (existsb _ _).
Qed.

Lemma applicationExists_result path w :
  result (applicationExists path w) = found path w.
Proof. by rewrite applicationExists_eq. Qed.

Lemma removeApplication_eq path w :
  _removeApplication path w =
    let w1 := withBackend (tail (backend w)) w in
    let lookup :=
      EvSql (Sql.SelectPath path) (willing w && bool_decide (is_Some (table w))) in
    if found path w then
      let '(r, w2, e) := exec (Sql.Delete path) w1 in (executed r, w2, lookup :: e)
    else (false, w1, [lookup]).
Proof.
  unfold _removeApplication, bind. rewrite applicationExists_eq.
  destruct (found path w); [|done].
  destruct (exec _ _) as [[r w2] e]. cbn. by rewrite app_nil_r.
Qed.

(** When the engine takes the lookup and the delete does not fail, the
    row is gone after [_removeApplication]. *)
Lemma removeApplication_removes w path :
  willing w = true ->
  deleteExecuted (calls (_removeApplication path w)) = true ->
  forall rows, table (after (_removeApplication path w)) = Some rows -> path ∉ rows.
Proof.
  intros Hw. rewrite removeApplication_eq. cbn.
  destruct (found path w) eqn:Hf; cbn.
  - exec_case (Sql.Delete path) (withBackend (tail (backend w)) w) Hd; [|done].
    intros _ rs Hrs. destruct (table w) as [rs0|]; [|done].
    injection Hd as <- <-. injection Hrs as <-. apply not_in_deleted.
  - intros _ rs Hrs. unfold found in Hf. rewrite Hw, Hrs in Hf. cbn in Hf.
    apply not_true_iff_false in Hf. by rewrite existsb_samePath in Hf.
Qed.

(** ** Frames *)

Lemma storeOnly_ret {A} (a : A) : storeOnly (ret a).
Proof. by intros w. Qed.

Lemma storeOnly_exec q : storeOnly (exec q).
Proof.
  intros w. unfold exec. destruct (willing w); [|done].
  by destruct (Sql.run q (table w)) as [[rows t]|].
Qed.

Lemma storeOnly_bind {A B} (m : M A) (k : A -> M B) :
  storeOnly m -> (forall a, storeOnly (k a)) -> storeOnly (bind m k).
Proof.
  intros Hm Hk w. unfold bind.
  specialize (Hm w). destruct (m w) as [[a w1] e1].
  specialize (Hk a w1). destruct (k a w1) as [[b w2] e2].
  unfold after, calls, sqlOnly in *. cbn in *.
  destruct Hk as (-> & -> & -> & He2), Hm as (-> & -> & -> & He1).
  by rewrite forallb_app, He1, He2.
Qed.

Lemma storeOnly_applicationExists path : storeOnly (applicationExists path).
Proof. apply storeOnly_bind; [apply storeOnly_exec | intros; apply storeOnly_ret]. Qed.

Lemma storeOnly_addApplication path : storeOnly (_addApplication path).
Proof.
  unfold _addApplication. destruct (negb _); [|apply storeOnly_ret].
  apply storeOnly_bind; [apply storeOnly_exec | intros; apply storeOnly_ret].
Qed.

Lemma storeOnly_removeApplication path : storeOnly (_removeApplication path).
Proof.
  apply storeOnly_bind; [apply storeOnly_applicationExists|].
  intros [|]; [|apply storeOnly_ret].
  apply storeOnly_bind; [apply storeOnly_exec | intros; apply storeOnly_ret].
Qed.

Lemma cacheWrites_sqlOnly es : sqlOnly es = true -> cacheWrites es = 0.
Proof.
  unfold sqlOnly, cacheWrites. induction es as [|[] es IH]; cbn; try done.
Qed.

Lemma cacheWrites_app es1 es2 :
  cacheWrites (es1 ++ es2) = cacheWrites es1 + cacheWrites es2.
Proof. unfold cacheWrites. by rewrite List.filter_app, length_app. Qed.

(** ** Distinct paths, one member function at a time *)

Lemma keepsUnique_exec q : keepsUnique (exec q).
Proof.
  intros w Hu. unfold exec. destruct (willing w); [|exact Hu].
  destruct (Sql.run q (table w)) as [[rows t]|] eqn:Hrun; [|exact Hu].
  intros rs Hrs. exact (run_unique _ _ _ _ Hrun Hu rs Hrs).
Qed.

Lemma keepsUnique_ret {A} (a : A) : keepsUnique (ret a).
Proof. by intros w. Qed.

Lemma keepsUnique_stat {A} (f : FileSystem -> A) : keepsUnique (stat f).
Proof. by intros w. Qed.

Lemma keepsUnique_member {A} (f : World -> A) : keepsUnique (member f).
Proof. by intros w. Qed.

Lemma keepsUnique_openFile path : keepsUnique (openFile path).
Proof. by intros w. Qed.

Lemma keepsUnique_getAttribute path key :
  keepsUnique (getAttributeValueQString path key).
Proof. intros w Hu. unfold getAttributeValueQString. by destruct (_ !! _). Qed.

Lemma keepsUnique_setAttribute path key v :
  keepsUnique (setAttributeValueQString path key v).
Proof. intros w Hu. unfold setAttributeValueQString. by destruct (takesExtattr _ _). Qed.

Lemma keepsUnique_bind {A B} (m : M A) (k : A -> M B) :
  keepsUnique m -> (forall a, keepsUnique (k a)) -> keepsUnique (bind m k).
Proof.
  intros Hm Hk w Hu. unfold bind.
  specialize (Hm w Hu). destruct (m w) as [[a w1] e1].
  specialize (Hk a w1 Hm). by destruct (k a w1) as [[b w2] e2].
Qed.

Create HintDb unique discriminated.
#[local] Hint Resolve keepsUnique_exec keepsUnique_ret keepsUnique_stat
  keepsUnique_member keepsUnique_openFile keepsUnique_getAttribute
  keepsUnique_setAttribute : unique.

(** Walks down the binds and branches of a member function. *)
Ltac keeps_unique :=
  repeat first
    [ apply keepsUnique_bind; [|intros ?]
    | solve [auto with unique]
    | match goal with
      | |- keepsUnique (if ?b then _ else _) => destruct b
      | |- keepsUnique (match ?o with Some _ => _ | None => _ end) => destruct o
      end ].

Lemma keepsUnique_createTable : keepsUnique _createTable.
Proof. unfold _createTable. keeps_unique. Qed.

Lemma keepsUnique_applicationExists path : keepsUnique (applicationExists path).
Proof. unfold applicationExists. keeps_unique. Qed.

Lemma keepsUnique_addApplication path : keepsUnique (_addApplication path).
Proof. unfold _addApplication. keeps_unique. Qed.

Lemma keepsUnique_removeApplication path : keepsUnique (_removeApplication path).
Proof.
  unfold _removeApplication. apply keepsUnique_bind;
    [apply keepsUnique_applicationExists | intros ?]. keeps_unique.
Qed.

Lemma keepsUnique_removeAll : keepsUnique removeAllApplications.
Proof. unfold removeAllApplications. keeps_unique. Qed.

Lemma keepsUnique_allApplications : keepsUnique allApplications.
Proof. unfold allApplications. keeps_unique. Qed.

Lemma keepsUnique_getCanOpenFromFile path : keepsUnique (getCanOpenFromFile path).
Proof. unfold getCanOpenFromFile. keeps_unique. Qed.

Lemma keepsUnique_handleApplication path : keepsUnique (handleApplication path).
Proof.
  unfold handleApplication.
  pose proof keepsUnique_removeApplication. pose proof keepsUnique_addApplication.
  pose proof keepsUnique_getCanOpenFromFile. keeps_unique.
Qed.

Lemma step_unique w o : uniquePaths w -> uniquePaths (step w o).
Proof.
  destruct o; cbn.
  - apply keepsUnique_createTable.
  - apply keepsUnique_addApplication.
  - apply keepsUnique_removeApplication.
  - apply keepsUnique_removeAll.
  - apply keepsUnique_applicationExists.
  - apply keepsUnique_allApplications.
  - apply keepsUnique_handleApplication.
Qed.

(** ** The capability lookup *)

Section Capability.
Import Text.

Lemma scan_no_match lines mime :
  Forall (fun line => startsWith (trimmed line) "MimeType=" = false) lines ->
  fold_left scanLine lines mime = mime.
Proof.
  intros H. revert mime. induction H as [|line lines Hline _ IH]; intros mime; [done|].
  cbn [fold_left]. unfold scanLine at 2. by rewrite Hline, IH.
Qed.

(** The loop keeps the value of the last line that carries the prefix. *)
Lemma scan_last_match before raw rest mime :
  startsWith (trimmed raw) "MimeType=" = true ->
  Forall (fun line => startsWith (trimmed line) "MimeType=" = false) rest ->
  fold_left scanLine (before ++ raw :: rest) mime = remove 0 9 (trimmed raw).
Proof.
  intros Hraw Hrest. rewrite fold_left_app. cbn [fold_left].
  rewrite scan_no_match by done. unfold scanLine. by rewrite Hraw.
Qed.

Lemma getCanOpenFromFile_desktop w p :
  endsDesktop p = true ->
  getCanOpenFromFile p w =
    match marker w p with
    | Some _ => (QNull, w, [EvGetAttr p "can-open"])
    | None =>
        (QS (match fileText (fs w) p with
             | Some content => fold_left scanLine (readLines content) EmptyString
             | None => EmptyString
             end), w, [EvGetAttr p "can-open"; EvOpenFile p])
    end.
Proof.
  unfold endsDesktop. intros Hd. unfold getCanOpenFromFile.
  rewrite (endsWith_desktop_not_app _ Hd), Hd.
  unfold bind, getAttributeValueQString, openFile, marker.
  destruct (xattrs w !! _); [done|]. cbn. by destruct (fileText _ _).
Qed.

End Capability.

Lemma storeOnly_removeApplicationQ path : storeOnly (_removeApplicationQ path).
Proof.
  apply storeOnly_bind.
  { apply storeOnly_bind; [apply storeOnly_exec | intros; apply storeOnly_ret]. }
  intros [|]; [|apply storeOnly_ret].
  apply storeOnly_bind; [apply storeOnly_exec | intros; apply storeOnly_ret].
Qed.



Lemma handleApplication_dead_eq w path :
  live w (canonicalPath (fs w) path) = false ->
  after (handleApplication path w) =
    after (_removeApplicationQ (canonicalQString (canonicalPath (fs w) path)) w) /\
  calls (handleApplication path w) =
    calls (_removeApplicationQ (canonicalQString (canonicalPath (fs w) path)) w).
Proof.
  unfold live, handleApplication, bind, stat. cbn. intros ->. cbn.
  destruct (_removeApplicationQ _ w) as [[r w1] e1]. cbn. by rewrite app_nil_r.
Qed.

(** * The claims *)

Import Example.

Ltac run := vm_compute; reflexivity.

(** ** Listing *)

(** C1, as amended.  When the applications table exists and both SELECT
    statements of [allApplications] execute, the listing is every row of
    the table in two passes: first, in the order of the table, the paths
    that do not end in [.desktop] when ASCII letters are compared without
    regard to case (which is what [LIKE '%.desktop'] tests), then the
    paths that do.  The listing is a permutation of the table, and every
    row of the first kind stands in it before every row of the second: on
    a store that holds [/a/x.desktop], [/a/y.app] and [/a/z], whatever
    their order in the table, [/a/y.app] and [/a/z] come before
    [/a/x.desktop]. *)
Theorem allApplications_two_pass w rows :
  table w = Some rows ->
  allExecuted (calls (allApplications w)) = true ->
  result (allApplications w) = twoPass desktopRow rows /\
  result (allApplications w) ≡ₚ rows /\
  forall i j p q,
    result (allApplications w) !! i = Some p ->
    result (allApplications w) !! j = Some q ->
    desktopRow p = false -> desktopRow q = true -> i < j.
Proof.
  intros Ht Hx.
  assert (result (allApplications w) = twoPass desktopRow rows) as ->.
  2: { split; [done|]. split; [apply twoPass_perm|].
       intros i j p q. apply twoPass_boundary. }
  revert Hx. unfold allApplications, bind.
  exec_case (Sql.SelectNotLike "%.desktop") w H1.
  2: { by destruct (exec _ _) as [[? ?] ?]. }
  rewrite Ht in H1. injection H1 as <- <-.
  match goal with |- context [exec ?q ?w'] => exec_case q w' H2 end; [|done].
  injection H2 as <- <-. intros _.
  unfold twoPass. f_equal; apply filter_ext; intros row; by rewrite LIKE_desktop.
Qed.

(** The store of the specification, with [/a/z] registered first:
    [/a/y.app] and [/a/z] come before [/a/x.desktop]. *)
Lemma allApplications_two_pass_witness :
  let rows := ["/a/z"; "/a/x.desktop"; "/a/y.app"] in
  let w := world (Some rows) [] ∅ in
  table w = Some rows /\
  allExecuted (calls (allApplications w)) = true /\
  result (allApplications w) = ["/a/z"; "/a/y.app"; "/a/x.desktop"] /\
  (forall i j,
     result (allApplications w) !! i = Some "/a/y.app" ->
     result (allApplications w) !! j = Some "/a/x.desktop" -> i < j) /\
  (forall i j,
     result (allApplications w) !! i = Some "/a/z" ->
     result (allApplications w) !! j = Some "/a/x.desktop" -> i < j).
Proof.
  intros rows w.
  assert (table w = Some rows) as Ht by run.
  assert (allExecuted (calls (allApplications w)) = true) as Hx by run.
  assert (desktopRow "/a/y.app" = false) as Hy by run.
  assert (desktopRow "/a/z" = false) as Hz by run.
  assert (desktopRow "/a/x.desktop" = true) as Hd by run.
  destruct (allApplications_two_pass w rows Ht Hx) as (H & _ & Hbound).
  split; [exact Ht|]. split; [exact Hx|]. split; [rewrite H; run|].
  split; intros i j Hi Hj.
  - exact (Hbound i j _ _ Hi Hj Hy Hd).
  - exact (Hbound i j _ _ Hi Hj Hz Hd).
Defined.

(** C1 as it is written fails twice.  [/a/X.DESKTOP] does not end in
    [.desktop], yet [LIKE] sends it to the second pass, where it stands
    after [/a/x.desktop], a path that does end in [.desktop]; and a
    listing whose queries the engine refuses is empty whatever the table
    holds. *)
Lemma allApplications_exact_suffix_counterexample :
  (let rows := ["/a/x.desktop"; "/a/X.DESKTOP"] in
   let w := world (Some rows) [] ∅ in
   allExecuted (calls (allApplications w)) = true /\
   result (allApplications w) = ["/a/x.desktop"; "/a/X.DESKTOP"] /\
   endsDesktop "/a/x.desktop" = true /\
   endsDesktop "/a/X.DESKTOP" = false /\
   twoPass endsDesktop rows = ["/a/X.DESKTOP"; "/a/x.desktop"] /\
   result (allApplications w) <> twoPass endsDesktop rows) /\
  (let rows := ["/a/y.app"] in
   let w := world (Some rows) [false; false] ∅ in
   result (allApplications w) = [] /\
   twoPass endsDesktop rows = ["/a/y.app"] /\
   result (allApplications w) <> twoPass endsDesktop rows).
Proof. vm_compute. repeat split; discriminate. Qed.

(** ** Creating the table *)

(** C3, where the code falls short of the claim.  [_createTable] returns
    false whatever happens: [success] starts false and the only assignment
    to it, in the failure branch, stores false again.  On a database
    without the table the statement is executed, the table is there
    afterwards, and the function still reports false. *)
Theorem createTable_never_reports_success :
  (forall w, result (_createTable w) = false) /\
  table (after (_createTable (world None [] ∅))) = Some [] /\
  calls (_createTable (world None [] ∅)) = [EvSql Sql.CreateTable true].
Proof.
  split; [|done]. intros w. unfold _createTable, bind.
  destruct (exec _ _) as [[[rows|] w1] e1]; done.
Qed.

(** ** Lookup, removal and the invariant *)

(** C10.  When the SELECT of [applicationExists] fails to execute the
    function returns false, which is also what it returns, after a
    statement that did execute, for a path the table does not hold: the
    boolean alone does not tell the two apart. *)
Theorem applicationExists_failure w path :
  calls (applicationExists path w) = [EvSql (Sql.SelectPath path) false] ->
  result (applicationExists path w) = false /\
  forall w' rows,
    willing w' = true -> table w' = Some rows -> path ∉ rows ->
    calls (applicationExists path w') = [EvSql (Sql.SelectPath path) true] /\
    result (applicationExists path w') = result (applicationExists path w).
Proof.
  intros H. assert (found path w = false) as Hf.
  { rewrite applicationExists_eq in H. injection H as H. unfold found.
    destruct (willing w); [|done]. by destruct (table w). }
  rewrite !applicationExists_result. split; [done|]. intros w' rows Hw Ht Hnot.
  rewrite applicationExists_result, Hf, applicationExists_eq.
  unfold found, calls. cbn [snd]. rewrite Hw, Ht. cbn [andb]. split; [done|].
  apply not_true_iff_false. by rewrite existsb_samePath.
Qed.

Lemma applicationExists_failure_witness :
  let w := world (Some ["/a/y.app"]) [false] ∅ in
  let w' := world (Some ["/a/x.desktop"]) [] ∅ in
  calls (applicationExists "/a/y.app" w) = [EvSql (Sql.SelectPath "/a/y.app") false] /\
  result (applicationExists "/a/y.app" w) = false /\
  result (applicationExists "/a/y.app" w') = result (applicationExists "/a/y.app" w).
Proof.
  intros w w'.
  assert (calls (applicationExists "/a/y.app" w) =
          [EvSql (Sql.SelectPath "/a/y.app") false]) as Hc by run.
  assert (willing w' = true) as Hw' by run.
  assert (table w' = Some ["/a/x.desktop"]) as Ht' by run.
  destruct (applicationExists_failure w "/a/y.app" Hc) as [Hres Hsame].
  split; [exact Hc|]. split; [exact Hres|].
  refine (proj2 (Hsame w' ["/a/x.desktop"] Hw' Ht' _)).
  intros Hin. apply list_elem_of_singleton in Hin. discriminate Hin.
Defined.

(** C9, as amended.  For every path and every prior state of the store,
    [_removeApplication] followed by [applicationExists] on the same path
    returns false, provided the engine does not refuse the existence lookup
    that the removal makes first and the DELETE executes when it runs. *)
Theorem remove_then_exists w path :
  willing w = true ->
  deleteExecuted (calls (_removeApplication path w)) = true ->
  result (applicationExists path (after (_removeApplication path w))) = false.
Proof.
  intros Hw Hd. rewrite applicationExists_result. unfold found.
  destruct (table _) as [rows|] eqn:Ht; [|apply andb_false_r].
  apply andb_false_intro2, not_true_iff_false. rewrite existsb_samePath.
  by apply (removeApplication_removes w path).
Qed.

Lemma remove_then_exists_witness :
  let w := world (Some ["/a/x.desktop"; "/a/y.app"]) [] ∅ in
  willing w = true /\
  deleteExecuted (calls (_removeApplication "/a/y.app" w)) = true /\
  table (after (_removeApplication "/a/y.app" w)) = Some ["/a/x.desktop"] /\
  result (applicationExists "/a/y.app" (after (_removeApplication "/a/y.app" w))) = false.
Proof.
  intros w.
  assert (willing w = true) as Hw by run.
  assert (deleteExecuted (calls (_removeApplication "/a/y.app" w)) = true) as Hd by run.
  split; [exact Hw|]. split; [exact Hd|]. split; [run|].
  exact (remove_then_exists w "/a/y.app" Hw Hd).
Defined.

(** C9 as it is written fails when the engine refuses the lookup inside
    the removal: [applicationExists] then answers false, the DELETE never
    runs (so none fails), the row stays, and the next lookup finds it. *)
Lemma remove_then_exists_counterexample :
  let w := world (Some ["/a/y.app"]) [false] ∅ in
  calls (_removeApplication "/a/y.app" w) = [EvSql (Sql.SelectPath "/a/y.app") false] /\
  deleteExecuted (calls (_removeApplication "/a/y.app" w)) = true /\
  result (applicationExists "/a/y.app" (after (_removeApplication "/a/y.app" w))) = true.
Proof. vm_compute. repeat split. Qed.

(** C7.  From a table without duplicate paths (an empty or absent table
    is one), every sequence of calls of [_createTable], [_addApplication],
    [_removeApplication], [removeAllApplications], [applicationExists],
    [allApplications] and [handleApplication] leaves a table in which each
    path occurs at most once, whatever the engine refuses on the way. *)
Theorem registry_paths_unique ops w :
  uniquePaths w -> uniquePaths (steps ops w).
Proof.
  revert w. induction ops as [|o ops IH]; intros w Hu; [done|].
  cbn. apply IH. by apply step_unique.
Qed.

Lemma registry_paths_unique_witness :
  let w := world None [true; true; false] ∅ in
  let ops := [CallCreateTable; CallHandle "/a/y.app"; CallAdd "/a/x.desktop";
              CallHandle "/a/y.app"; CallAdd "/a/y.app"; CallHandle "/a/x.desktop";
              CallExists "/a/y.app"; CallRemove "/a/z"; CallAll] in
  uniquePaths w /\
  table (steps ops w) = Some ["/a/y.app"; "/a/x.desktop"] /\
  NoDup ["/a/y.app"; "/a/x.desktop"].
Proof.
  intros w ops.
  assert (uniquePaths w) as Hw by (intros rows Hrows; discriminate Hrows).
  assert (table (steps ops w) = Some ["/a/y.app"; "/a/x.desktop"]) as Ht by run.
  split; [exact Hw|]. split; [exact Ht|].
  exact (registry_paths_unique ops w Hw _ Ht).
Defined.

(** ** Reconciling one path *)




(** A path that is gone from the disk resolves to the null string: the
    lookup then binds NULL, which equals no row, and the row under which
    the path was registered stays in the table. *)
Example handleApplication_vanished_path :
  let w := world (Some ["/a/z"; "/a/y.app"]) [] ∅ in
  canonicalPath (fs w) "/a/z" = EmptyString /\
  calls (handleApplication "/a/z" w) = [EvSql Sql.SelectPathNull true] /\
  table (after (handleApplication "/a/z" w)) = Some ["/a/z"; "/a/y.app"].
Proof. vm_compute. repeat split. Qed.

(** C5.  For every live path whose [can-open] marker is present, a
    [.desktop] path in particular, [handleApplication] makes no call to
    the attribute-store string setter and leaves the attributes as they
    were. *)
Theorem handleApplication_cached_marker w path :
  live w (canonicalPath (fs w) path) = true ->
  endsDesktop (canonicalPath (fs w) path) = true ->
  is_Some (marker w (canonicalPath (fs w) path)) ->
  cacheWrites (calls (handleApplication path w)) = 0 /\
  xattrs (after (handleApplication path w)) = xattrs w.
Proof.
  intros Hlive _ [v Hv]. revert Hlive.
  unfold live, handleApplication, bind, stat, member. cbn. intros ->. cbn.
  set (c := canonicalPath (fs w) path) in *.
  destruct (storeOnly_addApplication c w) as (_ & Hx & _ & Hsql).
  destruct (_addApplication c w) as [[r w1] e1]. unfold after, calls in Hx, Hsql.
  cbn in Hx, Hsql |- *. apply cacheWrites_sqlOnly in Hsql.
  destruct (filesystemSupportsExtattr w1); cbn.
  - unfold getAttributeValueQString, marker in *. rewrite Hx, Hv. cbn.
    by rewrite cacheWrites_app, Hsql.
  - by rewrite cacheWrites_app, Hsql.
Qed.

Lemma handleApplication_cached_marker_witness :
  let w := world (Some []) [] {[ ("/a/x.desktop", "can-open") := "text/plain;" ]} in
  live w (canonicalPath (fs w) "/a/x.desktop") = true /\
  endsDesktop (canonicalPath (fs w) "/a/x.desktop") = true /\
  is_Some (marker w (canonicalPath (fs w) "/a/x.desktop")) /\
  cacheWrites (calls (handleApplication "/a/x.desktop" w)) = 0.
Proof.
  intros w.
  assert (live w (canonicalPath (fs w) "/a/x.desktop") = true) as Hlive by run.
  assert (endsDesktop (canonicalPath (fs w) "/a/x.desktop") = true) as Hd by run.
  assert (is_Some (marker w (canonicalPath (fs w) "/a/x.desktop"))) as Hm.
  { exists "text/plain;". run. }
  split; [exact Hlive|]. split; [exact Hd|]. split; [exact Hm|].
  exact (proj1 (handleApplication_cached_marker w "/a/x.desktop" Hlive Hd Hm)).
Defined.

(** ** The capability source *)

(** C2.  For a [.desktop] path whose [can-open] marker is present,
    [getCanOpenFromFile] returns the null string.  For a [.desktop] path
    without the marker the result is never null, and it is the empty,
    non-null string when the file declares no [MimeType=] line: [isNull]
    tells the two results apart. *)
Theorem getCanOpenFromFile_already_resolved w p :
  endsDesktop p = true ->
  is_Some (marker w p) ->
  result (getCanOpenFromFile p w) = QNull /\
  forall w' p',
    endsDesktop p' = true -> marker w' p' = None ->
    isNull (result (getCanOpenFromFile p' w')) = false /\
    (noMimeType w' p' -> result (getCanOpenFromFile p' w') = QS EmptyString).
Proof.
  intros Hd [v Hv]. rewrite (getCanOpenFromFile_desktop _ _ Hd), Hv.
  split; [done|]. intros w' p' Hd' Hm'.
  rewrite (getCanOpenFromFile_desktop _ _ Hd'), Hm'. split; [done|].
  intros Hno. unfold result. cbn.
  destruct (fileText _ _) as [content|] eqn:Hf; [|done].
  by rewrite scan_no_match by by apply Hno.
Qed.

Lemma getCanOpenFromFile_already_resolved_witness :
  let w := world (Some []) [] {[ ("/a/x.desktop", "can-open") := "text/plain;" ]} in
  endsDesktop "/a/x.desktop" = true /\
  is_Some (marker w "/a/x.desktop") /\
  isNull (result (getCanOpenFromFile "/a/x.desktop" w)) = true /\
  isNull (result (getCanOpenFromFile "/a/n.desktop" w)) = false /\
  result (getCanOpenFromFile "/a/n.desktop" w) = QS EmptyString.
Proof.
  intros w.
  assert (endsDesktop "/a/x.desktop" = true) as Hd by run.
  assert (is_Some (marker w "/a/x.desktop")) as Hm.
  { exists "text/plain;". run. }
  assert (endsDesktop "/a/n.desktop" = true) as Hd' by run.
  assert (marker w "/a/n.desktop" = None) as Hm' by run.
  destruct (getCanOpenFromFile_already_resolved w "/a/x.desktop" Hd Hm)
    as [Hnull Hother].
  destruct (Hother w "/a/n.desktop" Hd' Hm') as [Hset Hempty].
  split; [exact Hd|]. split; [exact Hm|]. split; [by rewrite Hnull|].
  split; [exact Hset|]. apply Hempty. intros content Hc.
  assert (fileText (fs w) "/a/n.desktop" =
          Some ("[Desktop Entry]" +:+ nl +:+ "Name=Nothing" +:+ nl)) as Hf by run.
  rewrite Hf in Hc. injection Hc as <-.
  assert (Text.readLines ("[Desktop Entry]" +:+ nl +:+ "Name=Nothing" +:+ nl) =
          ["[Desktop Entry]"; "Name=Nothing"]) as -> by run.
  repeat constructor.
Defined.

(** The caller's own tests, [isEmpty] and [== ""], take the null and the
    empty string for the same thing. *)
Remark null_and_empty_alike :
  isEmpty QNull = isEmpty (QS EmptyString) /\ qeq QNull (QS EmptyString) = true.
Proof. by split. Qed.

(** C4.  For a [.desktop] path without the marker whose file opens, the
    lookup reads the file line by line, trims each line, and returns what
    follows the prefix [MimeType=] on the last trimmed line that starts
    with it: whatever the lines [before], if [raw] carries the prefix and
    no line of [rest] does, the result is the text after the prefix of the
    trimmed [raw]. *)
Theorem getCanOpenFromFile_last_MimeType w p content before raw rest :
  endsDesktop p = true ->
  marker w p = None ->
  fileText (fs w) p = Some content ->
  Text.readLines content = before ++ raw :: rest ->
  Text.startsWith (Text.trimmed raw) "MimeType=" = true ->
  Forall (fun line => Text.startsWith (Text.trimmed line) "MimeType=" = false) rest ->
  exists value,
    Text.trimmed raw = "MimeType=" +:+ value /\
    result (getCanOpenFromFile p w) = QS value.
Proof.
  intros Hd Hm Hf Hlines Hraw Hrest. exists (Text.remove 0 9 (Text.trimmed raw)).
  split; [exact (remove_prefix _ _ Hraw)|].
  rewrite (getCanOpenFromFile_desktop _ _ Hd), Hm, Hf, Hlines.
  unfold result. cbn [fst]. by rewrite scan_last_match.
Qed.

(** The file of the specification: [MimeType=text/plain;] and then
    [MimeType=image/png;] give [image/png;]. *)
Lemma getCanOpenFromFile_last_MimeType_witness :
  let w := world (Some []) [] ∅ in
  endsDesktop "/a/x.desktop" = true /\
  marker w "/a/x.desktop" = None /\
  fileText (fs w) "/a/x.desktop" =
    Some ("MimeType=text/plain;" +:+ nl +:+ "MimeType=image/png;" +:+ nl) /\
  Text.readLines twoLines = ["MimeType=text/plain;"] ++ "MimeType=image/png;" :: [] /\
  result (getCanOpenFromFile "/a/x.desktop" w) = QS "image/png;".
Proof.
  intros w.
  assert (endsDesktop "/a/x.desktop" = true) as Hd by run.
  assert (marker w "/a/x.desktop" = None) as Hm by run.
  assert (fileText (fs w) "/a/x.desktop" = Some twoLines) as Hf by run.
  assert (Text.readLines twoLines =
          ["MimeType=text/plain;"] ++ "MimeType=image/png;" :: []) as Hl by run.
  assert (Text.startsWith (Text.trimmed "MimeType=image/png;") "MimeType=" = true)
    as Hs by run.
  destruct (getCanOpenFromFile_last_MimeType w "/a/x.desktop" twoLines
              ["MimeType=text/plain;"] "MimeType=image/png;" []
              Hd Hm Hf Hl Hs (Forall_nil_2 _)) as (value & Hv & Hres).
  split; [exact Hd|]. split; [exact Hm|]. split; [exact Hf|]. split; [exact Hl|].
  rewrite Hres. f_equal. apply (inj (String.app "MimeType=")). rewrite <- Hv. run.
Defined.

(** White space around a line does not hide its prefix, and the last
    line that carries it wins over the lines before it. *)
Example getCanOpenFromFile_trims :
  result (getCanOpenFromFile "/a/v.desktop" (world (Some []) [] ∅)) = QS "image/png;".
Proof. run. Qed.

(** C8.  For a path that ends in [.app]: when the sidecar file
    [Resources/can-open] is a file and opens, [getCanOpenFromFile] returns
    its text as it is, neither trimmed nor cut into lines (the string
    returned is null exactly when that text is empty); when the sidecar is
    not a file or does not open, it returns the null string. *)
Theorem getCanOpenFromFile_bundle w p :
  Text.endsWith p ".app" = true ->
  (forall content,
     isFile (fs w) (sidecar p) = true ->
     fileText (fs w) (sidecar p) = Some content ->
     toStd (result (getCanOpenFromFile p w)) = content /\
     isNull (result (getCanOpenFromFile p w)) = String.eqb content EmptyString) /\
  (isFile (fs w) (sidecar p) = false \/ fileText (fs w) (sidecar p) = None ->
   result (getCanOpenFromFile p w) = QNull).
Proof.
  intros Happ. unfold getCanOpenFromFile. rewrite Happ.
  unfold bind, stat, openFile, sidecar. cbn. split.
  - intros content Hi Hf. rewrite Hi. cbn. rewrite Hf. unfold readAll, result. cbn.
    destruct (String.eqb_spec content EmptyString) as [->|Hne]; done.
  - intros [-> | Hf]; [done|]. destruct (isFile _ _); [|done]. cbn. by rewrite Hf.
Qed.

Lemma getCanOpenFromFile_bundle_witness :
  let w := world (Some []) [] ∅ in
  Text.endsWith "/a/y.app" ".app" = true /\
  isFile (fs w) (sidecar "/a/y.app") = true /\
  fileText (fs w) (sidecar "/a/y.app") = Some ("text/plain" +:+ nl) /\
  toStd (result (getCanOpenFromFile "/a/y.app" w)) = "text/plain" +:+ nl /\
  isNull (result (getCanOpenFromFile "/a/y.app" w)) = false /\
  isFile (fs w) (sidecar "/a/gone.app") = false /\
  result (getCanOpenFromFile "/a/gone.app" w) = QNull.
Proof.
  intros w.
  assert (Text.endsWith "/a/y.app" ".app" = true) as Happ by run.
  assert (isFile (fs w) (sidecar "/a/y.app") = true) as Hi by run.
  assert (fileText (fs w) (sidecar "/a/y.app") = Some ("text/plain" +:+ nl)) as Hf by run.
  assert (Text.endsWith "/a/gone.app" ".app" = true) as Happ' by run.
  assert (isFile (fs w) (sidecar "/a/gone.app") = false) as Hi' by run.
  destruct (proj1 (getCanOpenFromFile_bundle w "/a/y.app" Happ) _ Hi Hf) as [Htext Hnull].
  split; [exact Happ|]. split; [exact Hi|]. split; [exact Hf|].
  split; [exact Htext|]. split; [exact Hnull|]. split; [exact Hi'|].
  exact (proj2 (getCanOpenFromFile_bundle w "/a/gone.app" Happ') (or_introl Hi')).
Defined.

(** * Further properties of the registry store *)

(** ** Insertion *)

Lemma addApplication_eq path w :
  _addApplication path w =
    if String.eqb path EmptyString then (false, w, [])
    else if willing w then
      match table w with
      | Some rows =>
          if existsb (Sql.samePath path) rows
          then (false, withBackend (tail (backend w)) w, [EvSql (Sql.Insert path) false])
          else (true, withTable (Some (rows ++ [path])) (withBackend (tail (backend w)) w),
                [EvSql (Sql.Insert path) true])
      | None => (false, withBackend (tail (backend w)) w, [EvSql (Sql.Insert path) false])
      end
    else (false, withBackend (tail (backend w)) w, [EvSql (Sql.Insert path) false]).
Proof.
  unfold _addApplication. destruct (String.eqb path EmptyString); [done|]. cbn [negb].
  unfold bind, exec. destruct (willing w); [|done].
  destruct (table w) as [rows|]; cbn; [|done].
  by destruct (existsb _ _).
Qed.

(** What a successful insertion tells and does. *)
Lemma addApplication_true w path :
  result (_addApplication path w) = true ->
  path <> EmptyString /\ willing w = true /\
  exists rows,
    table w = Some rows /\ (path ∉ rows) /\
    table (after (_addApplication path w)) = Some (rows ++ [path]).
Proof.
  rewrite addApplication_eq.
  destruct (String.eqb_spec path EmptyString) as [->|Hne]; [done|].
  destruct (willing w); [|done].
  destruct (table w) as [rows|]; [|done].
  destruct (existsb _ _) eqn:Hin; [done|]. intros _.
  apply not_true_iff_false in Hin. rewrite existsb_samePath in Hin.
  split; [done|]. split; [done|]. by exists rows.
Qed.

(** X1.  [_addApplication] reports success exactly when the path is not
    empty, the engine takes the INSERT, the table exists and the path is
    not in it yet: an empty path, a second insertion of a path and a
    refused statement all give false. *)
Theorem addApplication_succeeds_iff w path :
  result (_addApplication path w) = true <->
  path <> EmptyString /\ willing w = true /\
  exists rows, table w = Some rows /\ path ∉ rows.
Proof.
  split.
  - intros (Hne & Hw & rows & Ht & Hnot & _)%addApplication_true. eauto.
  - intros (Hne & Hw & rows & Ht & Hnot). rewrite addApplication_eq.
    apply String.eqb_neq in Hne. rewrite Hne, Hw, Ht.
    assert (existsb (Sql.samePath path) rows = false) as ->; [|done].
    apply not_true_iff_false. by rewrite existsb_samePath.
Qed.

(** X2.  A successful [_addApplication] adds one row, the path, and
    keeps every row the table had. *)
Theorem addApplication_inserts w path :
  result (_addApplication path w) = true ->
  exists rows rows',
    table w = Some rows /\ table (after (_addApplication path w)) = Some rows' /\
    length rows' = S (length rows) /\
    forall q, q ∈ rows' <-> q ∈ rows \/ q = path.
Proof.
  intros (_ & _ & rows & Ht & _ & Ht')%addApplication_true.
  exists rows, (rows ++ [path]). split; [done|]. split; [done|].
  split; [rewrite length_app; cbn; lia|].
  intros q. by rewrite elem_of_app, list_elem_of_singleton.
Qed.

(** X3.  An [_addApplication] that reports failure has changed neither
    the table nor the attributes. *)
Theorem addApplication_fails_unchanged w path :
  result (_addApplication path w) = false ->
  table (after (_addApplication path w)) = table w /\
  xattrs (after (_addApplication path w)) = xattrs w.
Proof.
  rewrite addApplication_eq.
  destruct (String.eqb path EmptyString); [done|].
  destruct (willing w); [|done].
  destruct (table w) as [rows|] eqn:Ht; [|done].
  by destruct (existsb _ _).
Qed.

(** X4.  After a successful [_addApplication], [applicationExists] on the
    same path returns true, provided the engine takes the lookup. *)
Theorem add_then_exists w path :
  result (_addApplication path w) = true ->
  willing (after (_addApplication path w)) = true ->
  result (applicationExists path (after (_addApplication path w))) = true.
Proof.
  intros (_ & _ & rows & _ & _ & Ht)%addApplication_true Hw.
  rewrite applicationExists_result. unfold found. rewrite Hw, Ht. cbn.
  apply existsb_samePath, elem_of_app. right. by apply list_elem_of_singleton.
Qed.

(** ** Removal *)

Lemma removeApplication_cases path w :
  _removeApplication path w =
    let w1 := withBackend (tail (backend w)) w in
    let w2 := withBackend (tail (backend w1)) w1 in
    let lookup :=
      EvSql (Sql.SelectPath path) (willing w && bool_decide (is_Some (table w))) in
    if found path w then
      if willing w1 then
        (true,
         withTable (List.filter (fun row => negb (Sql.samePath path row)) <$> table w) w2,
         [lookup; EvSql (Sql.Delete path) true])
      else (false, w2, [lookup; EvSql (Sql.Delete path) false])
    else (false, w1, [lookup]).
Proof.
  rewrite removeApplication_eq. cbn zeta. destruct (found path w) eqn:Hf; [|done].
  unfold exec. destruct (willing (withBackend _ w)); [|done].
  unfold found in Hf. destruct (willing w); [|done].
  cbn. destruct (table w) as [rows|]; done.
Qed.

(** What a successful removal tells and does. *)
Lemma removeApplication_true w path :
  result (_removeApplication path w) = true ->
  willing w = true /\ willing (withBackend (tail (backend w)) w) = true /\
  exists rows,
    table w = Some rows /\ path ∈ rows /\
    table (after (_removeApplication path w)) =
      Some (List.filter (fun row => negb (Sql.samePath path row)) rows).
Proof.
  rewrite removeApplication_cases. cbn zeta. unfold found.
  destruct (willing w); [|done]. cbn [andb].
  destruct (table w) as [rows|]; [|done].
  destruct (existsb _ _) eqn:Hin; [|done]. apply existsb_samePath in Hin.
  destruct (willing (withBackend _ _)); [|done]. intros _.
  split; [done|]. split; [done|]. by exists rows.
Qed.

(** X5.  [_removeApplication] reports success exactly when the engine
    takes the lookup, the table holds the path, and the engine takes the
    DELETE as well: removing a path that is not registered reports
    failure. *)
Theorem removeApplication_succeeds_iff w path :
  result (_removeApplication path w) = true <->
  willing w = true /\
  (exists rows, table w = Some rows /\ path ∈ rows) /\
  willing (after (applicationExists path w)) = true.
Proof.
  rewrite applicationExists_eq. unfold after. cbn [fst snd]. split.
  - intros (Hw & Hw1 & rows & Ht & Hin & _)%removeApplication_true. eauto.
  - intros (Hw & (rows & Ht & Hin) & Hw1). rewrite removeApplication_cases. cbn zeta.
    unfold found. rewrite Hw, Ht, Hw1. cbn [andb].
    apply existsb_samePath in Hin. by rewrite Hin.
Qed.

(** X6.  A successful [_removeApplication] takes the path out of the
    table and keeps every other row, in the order they had. *)
Theorem removeApplication_deletes w path :
  result (_removeApplication path w) = true ->
  exists rows rows',
    table w = Some rows /\ table (after (_removeApplication path w)) = Some rows' /\
    rows' = List.filter (fun row => negb (String.eqb row path)) rows /\
    forall q, q ∈ rows' <-> q ∈ rows /\ q <> path.
Proof.
  intros (_ & _ & rows & Ht & _ & Ht')%removeApplication_true.
  exists rows, (List.filter (fun row => negb (String.eqb row path)) rows).
  split; [done|]. split; [done|]. split; [done|].
  intros q. rewrite list_elem_of_In, filter_In, <- list_elem_of_In, negb_true_iff.
  by rewrite String.eqb_neq.
Qed.

(** X7.  A [_removeApplication] that reports failure has left the table
    as it was. *)
Theorem removeApplication_fails_unchanged w path :
  result (_removeApplication path w) = false ->
  table (after (_removeApplication path w)) = table w.
Proof.
  rewrite removeApplication_cases. cbn zeta.
  destruct (found path w); [|done]. by destruct (willing (withBackend _ w)).
Qed.

Lemma filter_out_appended (path : string) rows :
  path ∉ rows ->
  List.filter (fun row => negb (Sql.samePath path row)) (rows ++ [path]) = rows.
Proof.
  intros Hnot. rewrite List.filter_app. cbn. unfold Sql.samePath at 2.
  rewrite String.eqb_refl. cbn.
  rewrite app_nil_r. induction rows as [|row rows IH]; [done|].
  apply not_elem_of_cons in Hnot as [Hne Hnot]. cbn. unfold Sql.samePath at 1.
  apply not_eq_sym, String.eqb_neq in Hne. rewrite Hne. cbn. by rewrite IH.
Qed.

(** X8.  A successful [_addApplication] followed by a successful
    [_removeApplication] of the same path gives back the table there was
    before the two calls. *)
Theorem add_then_remove_restores w path :
  result (_addApplication path w) = true ->
  result (_removeApplication path (after (_addApplication path w))) = true ->
  table (after (_removeApplication path (after (_addApplication path w)))) = table w.
Proof.
  intros (_ & _ & rows & Ht & Hnot & Ht1)%addApplication_true.
  intros (_ & _ & rows1 & Ht1' & _ & ->)%removeApplication_true.
  rewrite Ht1 in Ht1'. injection Ht1' as <-. by rewrite filter_out_appended.
Qed.

(** ** Clearing and counting *)

Lemma removeAllApplications_eq w :
  removeAllApplications w =
    let w1 := withBackend (tail (backend w)) w in
    if willing w && bool_decide (is_Some (table w))
    then (true, withTable (Some []) w1, [EvSql Sql.DeleteAll true])
    else (false, w1, [EvSql Sql.DeleteAll false]).
Proof.
  unfold removeAllApplications, bind, exec. destruct (willing w); [|done].
  destruct (table w) as [rows|] eqn:Ht; cbn; done.
Qed.

Lemma allApplications_empty_table w :
  table w = Some [] -> result (allApplications w) = [].
Proof.
  destruct w as [f t b x s]. cbn. intros ->.
  unfold allApplications, bind, exec, willing. cbn.
  destruct b as [|[] [|[] b]]; done.
Qed.

(** X9.  After a [removeAllApplications] that reports success the
    registry is empty for every reader: [allApplications] lists nothing,
    [_numberOfApplications] is 0 and [applicationExists] is false for every
    path, whatever the engine does with those later statements. *)
Theorem removeAll_then_empty w :
  result (removeAllApplications w) = true ->
  table (after (removeAllApplications w)) = Some [] /\
  result (allApplications (after (removeAllApplications w))) = [] /\
  (_numberOfApplications (after (removeAllApplications w))).1 = 0%N /\
  forall path,
    result (applicationExists path (after (removeAllApplications w))) = false.
Proof.
  rewrite removeAllApplications_eq. cbn zeta.
  destruct (willing w && _); [|done]. intros _.
  split; [done|]. split; [by apply allApplications_empty_table|]. split.
  - unfold _numberOfApplications, after. cbn. by destruct (willing _).
  - intros path. rewrite applicationExists_result. unfold found. cbn.
    apply andb_false_r.
Qed.

(** X10.  When the engine takes the query and the table has fewer than
    2^32 rows, [_numberOfApplications] is the number of rows, and the
    table is left as it was. *)
Theorem numberOfApplications_counts w rows :
  willing w = true ->
  table w = Some rows ->
  (N.of_nat (length rows) < 2 ^ 32)%N ->
  (_numberOfApplications w).1 = N.of_nat (length rows) /\
  table (_numberOfApplications w).2 = Some rows.
Proof.
  intros Hw Ht Hlt. unfold _numberOfApplications. rewrite Hw, Ht. cbn [fst snd].
  split; [by apply N.mod_small | done].
Qed.

(** X11.  A successful [_addApplication] raises the count by one (below
    2^32 rows, with an engine that takes the count query). *)
Theorem numberOfApplications_after_add w path rows :
  table w = Some rows ->
  (N.of_nat (S (length rows)) < 2 ^ 32)%N ->
  result (_addApplication path w) = true ->
  willing (after (_addApplication path w)) = true ->
  (_numberOfApplications (after (_addApplication path w))).1 =
  (N.of_nat (length rows) + 1)%N.
Proof.
  intros Ht Hlt (_ & _ & rows0 & Ht0 & _ & Ht')%addApplication_true Hw.
  rewrite Ht in Ht0. injection Ht0 as <-.
  unfold _numberOfApplications. rewrite Hw, Ht'. cbn [fst].
  rewrite length_app. cbn [length]. rewrite N.mod_small; lia.
Qed.

(** X12.  When the count query fails (the engine refuses it, or there is
    no table) [_numberOfApplications] returns 0, the count of an empty
    table, and the table is left as it was. *)
Theorem numberOfApplications_failure w :
  willing w = false \/ table w = None ->
  (_numberOfApplications w).1 = 0%N /\
  table (_numberOfApplications w).2 = table w.
Proof.
  unfold _numberOfApplications. intros [Hw | Ht].
  - by rewrite Hw.
  - rewrite Ht. by destruct (willing w).
Qed.

(** ** The schema *)

(** X13.  [_createTable] on a database that has the table fails and keeps
    every row: constructing a [DbManager] again does not lose the
    registry. *)
Theorem createTable_keeps_rows w rows :
  table w = Some rows ->
  table (after (_createTable w)) = Some rows /\
  calls (_createTable w) = [EvSql Sql.CreateTable false].
Proof.
  intros Ht. unfold _createTable, bind, exec. rewrite Ht. by destruct (willing w).
Qed.

(** X14.  [_createTable] on a database without the table, with an engine
    that takes the statement, leaves an empty table: no path exists in
    it. *)
Theorem createTable_creates w :
  table w = None ->
  willing w = true ->
  table (after (_createTable w)) = Some [] /\
  forall path,
    result (applicationExists path (after (_createTable w))) = false.
Proof.
  intros Ht Hw. unfold _createTable, bind, exec. rewrite Ht, Hw. cbn.
  split; [done|]. intros path. rewrite applicationExists_result. unfold found. cbn.
  apply andb_false_r.
Qed.

(** ** Lookup and listing *)

(** X15.  When the engine takes the lookup, [applicationExists] is true
    exactly for the paths of the table, compared letter for letter, and
    the table is left as it was. *)
Theorem applicationExists_executed w path rows :
  willing w = true ->
  table w = Some rows ->
  (result (applicationExists path w) = true <-> path ∈ rows) /\
  table (after (applicationExists path w)) = Some rows.
Proof.
  intros Hw Ht. rewrite applicationExists_eq. unfold result, after, found. cbn [fst snd].
  rewrite Hw, Ht. cbn [andb]. split; [apply existsb_samePath | done].
Qed.

Lemma allApplications_result w :
  result (allApplications w) =
    match table w with
    | None => []
    | Some rows =>
        (if willing w then List.filter (fun p => negb (desktopRow p)) rows else []) ++
        (if willing (withBackend (tail (backend w)) w)
         then List.filter desktopRow rows else [])
    end.
Proof.
  destruct w as [f t b x s]. unfold allApplications, bind, exec, willing. cbn.
  assert (forall rows, List.filter (fun row => Sql.LIKE row "%.desktop") rows
                       = List.filter desktopRow rows) as Hlike.
  { intros rows. apply filter_ext. intros row. apply LIKE_desktop. }
  assert (forall rows, List.filter (fun row => negb (Sql.LIKE row "%.desktop")) rows
                       = List.filter (fun p => negb (desktopRow p)) rows) as Hnot.
  { intros rows. apply filter_ext. intros row. by rewrite LIKE_desktop. }
  destruct t as [rows|]; destruct b as [|[] [|[] b]]; cbn;
    rewrite ?Hlike, ?Hnot, ?app_nil_r; done.
Qed.

Lemma allApplications_table w : table (after (allApplications w)) = table w.
Proof.
  destruct w as [f t b x s]. unfold allApplications, bind, exec, willing. cbn.
  destruct t as [rows|]; destruct b as [|[] [|[] b]]; done.
Qed.

(** X16.  Whatever the engine refuses, [allApplications] leaves the table
    as it was and returns a list of registered paths in which no
    [.desktop] row (in any case of letters) comes before a row of another
    kind. *)
Theorem allApplications_always_split w :
  table (after (allApplications w)) = table w /\
  exists first second,
    result (allApplications w) = first ++ second /\
    Forall (fun path => desktopRow path = false) first /\
    Forall (fun path => desktopRow path = true) second /\
    forall path, path ∈ first ++ second ->
                 exists rows, table w = Some rows /\ path ∈ rows.
Proof.
  split; [apply allApplications_table|]. rewrite allApplications_result.
  destruct (table w) as [rows|].
  2: { exists [], []. repeat split; try done. by intros path ?%elem_of_nil. }
  eexists _, _. split; [done|].
  assert (forall (c : bool) (f : string -> bool) path,
             path ∈ (if c then List.filter f rows else []) -> path ∈ rows /\ f path = true)
    as Hin.
  { intros [] f path; [|by intros ?%elem_of_nil].
    by rewrite list_elem_of_In, filter_In, <- list_elem_of_In. }
  split; [|split].
  - apply Forall_forall. intros path [_ H]%Hin. by apply negb_true_iff.
  - apply Forall_forall. by intros path [_ H]%Hin.
  - intros path [[H _]%Hin | [H _]%Hin]%elem_of_app; by exists rows.
Qed.

(** X17.  On a table without duplicate paths [allApplications] lists no
    path twice, whatever the engine refuses. *)
Theorem allApplications_no_duplicates w :
  uniquePaths w -> NoDup (result (allApplications w)).
Proof.
  intros Hu. rewrite allApplications_result.
  destruct (table w) as [rows|] eqn:Ht; [|apply NoDup_nil_2].
  specialize (Hu rows Ht).
  assert (forall (c : bool) (f : string -> bool),
             NoDup (if c then List.filter f rows else [])) as Hnd.
  { intros [] f; [|apply NoDup_nil_2].
    by apply NoDup_ListNoDup, List.NoDup_filter, NoDup_ListNoDup. }
  apply NoDup_app. split; [apply Hnd|]. split; [|apply Hnd].
  intros path H1 H2.
  destruct (willing w); [|by apply elem_of_nil in H1].
  destruct (willing _); [|by apply elem_of_nil in H2].
  apply list_elem_of_In, filter_In in H1 as [_ H1].
  apply list_elem_of_In, filter_In in H2 as [_ H2].
  rewrite H2 in H1. discriminate H1.
Qed.

(** * Further properties of the capability resolver *)

(** ** The lookup *)

Lemma getCanOpenFromFile_eq p w :
  getCanOpenFromFile p w =
    if Text.endsWith p ".app" then
      if isFile (fs w) (sidecar p) then
        (match fileText (fs w) (sidecar p) with Some c => readAll c | None => QNull end,
         w, [EvOpenFile (sidecar p)])
      else (QNull, w, [])
    else if Text.endsWith p ".desktop" then
      match marker w p with
      | Some _ => (QNull, w, [EvGetAttr p "can-open"])
      | None =>
          (QS (match fileText (fs w) p with
               | Some content => fold_left scanLine (Text.readLines content) EmptyString
               | None => EmptyString
               end), w, [EvGetAttr p "can-open"; EvOpenFile p])
      end
    else (QNull, w, []).
Proof.
  destruct (Text.endsWith p ".app") eqn:Happ.
  - unfold getCanOpenFromFile. rewrite Happ. unfold bind, stat, openFile, sidecar. cbn.
    destruct (isFile _ _); [|done]. cbn. by destruct (fileText _ _).
  - destruct (Text.endsWith p ".desktop") eqn:Hd.
    + by rewrite getCanOpenFromFile_desktop.
    + unfold getCanOpenFromFile. by rewrite Happ, Hd.
Qed.

Lemma getCanOpenFromFile_after w p : after (getCanOpenFromFile p w) = w.
Proof.
  rewrite getCanOpenFromFile_eq.
  destruct (Text.endsWith p ".app"); [by destruct (isFile _ _)|].
  destruct (Text.endsWith p ".desktop"); [|done]. by destruct (marker w p).
Qed.

Lemma getCanOpenFromFile_calls w p :
  forallb isRead (calls (getCanOpenFromFile p w)) = true.
Proof.
  rewrite getCanOpenFromFile_eq.
  destruct (Text.endsWith p ".app"); [by destruct (isFile _ _)|].
  destruct (Text.endsWith p ".desktop"); [|done]. by destruct (marker w p).
Qed.

(** The lookup reads the file system and the attributes and nothing
    else. *)
Lemma getCanOpenFromFile_same w w' p :
  fs w' = fs w -> xattrs w' = xattrs w ->
  result (getCanOpenFromFile p w') = result (getCanOpenFromFile p w) /\
  calls (getCanOpenFromFile p w') = calls (getCanOpenFromFile p w).
Proof.
  intros Hf Hx. rewrite !getCanOpenFromFile_eq. unfold marker. rewrite Hf, Hx.
  destruct (Text.endsWith p ".app"); [by destruct (isFile _ _)|].
  destruct (Text.endsWith p ".desktop"); [|done]. by destruct (xattrs w !! _).
Qed.

(** X18.  [getCanOpenFromFile] changes nothing: the world after the call
    is the world before it, and its only calls open a file or read an
    attribute (no statement, no attribute written). *)
Theorem getCanOpenFromFile_reads_only w p :
  after (getCanOpenFromFile p w) = w /\
  forallb isRead (calls (getCanOpenFromFile p w)) = true.
Proof. split; [apply getCanOpenFromFile_after | apply getCanOpenFromFile_calls]. Qed.


Section Trim.
Import Text.

Lemma dropSpaces_head l c : head (dropSpaces l) = Some c -> isSpace c = false.
Proof.
  induction l as [|a l IH]; [done|]. cbn [dropSpaces].
  destruct (isSpace a) eqn:Ha; [done|]. by intros [= <-].
Qed.

Lemma trimmed_last s c : last (chars (trimmed s)) = Some c -> isSpace c = false.
Proof.
  unfold trimmed. rewrite chars_text, last_reverse. apply dropSpaces_head.
Qed.

Lemma last_drop_some {A} n (l : list A) c : last (drop n l) = Some c -> last l = Some c.
Proof.
  intros H. rewrite <- (take_drop n l), last_app. by rewrite H.
Qed.

Lemma scanLine_last mime line :
  (forall c, last (chars mime) = Some c -> isSpace c = false) ->
  forall c, last (chars (scanLine mime line)) = Some c -> isSpace c = false.
Proof.
  intros Hm c. unfold scanLine. destruct (startsWith _ _); [|apply Hm].
  unfold remove. rewrite chars_text, take_0. cbn [app Nat.add].
  intros H%last_drop_some. by apply (trimmed_last line).
Qed.

(** X20.  What [getCanOpenFromFile] returns for a desktop entry without
    the marker never ends in white space: the value is cut from a trimmed
    line (the text of a bundle's sidecar, by contrast, comes back as it
    is). *)
Theorem getCanOpenFromFile_desktop_no_trailing_space w p c :
  endsDesktop p = true ->
  marker w p = None ->
  last (chars (toStd (result (getCanOpenFromFile p w)))) = Some c ->
  isSpace c = false.
Proof.
  intros Hd Hm. rewrite (getCanOpenFromFile_desktop _ _ Hd), Hm.
  unfold result. cbn [fst toStd]. destruct (fileText _ _) as [content|]; [|done].
  generalize (readLines content) as lines. intros lines. revert c.
  assert (forall c, last (chars EmptyString) = Some c -> isSpace c = false) as H0 by done.
  revert H0. generalize EmptyString as mime.
  induction lines as [|line lines IH]; intros mime H0.
  - exact H0.
  - cbn [fold_left]. apply IH. by apply scanLine_last.
Qed.

End Trim.

(** ** Reconciling a live path *)

Lemma handleApplication_live_eq w path :
  live w (canonicalPath (fs w) path) = true ->
  handleApplication path w =
    bind (_addApplication (canonicalPath (fs w) path))
         (fun _ => cacheCapability (canonicalPath (fs w) path)) w.
Proof.
  unfold live, handleApplication, cacheCapability, bind at 1 2 3, stat. cbn.
  intros ->. cbn. by destruct (bind _ _ w) as [[u w2] e2].
Qed.

Lemma isEmpty_qeq mime : isEmpty mime = false -> qeq mime (QS EmptyString) = false.
Proof. done. Qed.

(** What the caching part does, case by case. *)
Lemma cacheCapability_eq c w :
  cacheCapability c w =
    if negb (filesystemSupportsExtattr w) then (tt, w, [])
    else match marker w c with
         | Some _ => (tt, w, [EvGetAttr c "can-open"])
         | None =>
             let mime := result (getCanOpenFromFile c w) in
             let reads := EvGetAttr c "can-open" :: calls (getCanOpenFromFile c w) in
             if isEmpty mime then (tt, w, reads)
             else if takesExtattr (fs w) c then
               (tt, withXattrs (<[(c, "can-open") := toStd mime]> (xattrs w)) w,
                reads ++ [EvSetAttr c "can-open" (toStd mime)])
             else (tt, w, reads ++ [EvSetAttr c "can-open" (toStd mime)])
         end.
Proof.
  unfold cacheCapability, bind at 1, member. cbn.
  destruct (filesystemSupportsExtattr w); [|done]. cbn.
  unfold bind at 1, getAttributeValueQString, marker.
  destruct (xattrs w !! _) as [v|]; [done|]. cbn.
  unfold bind at 1.
  pose proof (getCanOpenFromFile_after w c) as Hw.
  destruct (getCanOpenFromFile c w) as [[mime w'] e]. unfold after in Hw. cbn in Hw.
  subst w'. unfold result, calls. cbn [fst snd].
  destruct (isEmpty mime) eqn:He; [cbn; by rewrite ?app_nil_r|].
  rewrite (isEmpty_qeq _ He). unfold bind, setAttributeValueQString.
  destruct (takesExtattr _ _); cbn; by rewrite ?app_nil_r.
Qed.

Lemma cacheCapability_table c w : table (after (cacheCapability c w)) = table w.
Proof.
  rewrite cacheCapability_eq. destruct (negb _); [done|].
  destruct (marker w c); [done|]. cbn zeta.
  destruct (isEmpty _); [done|]. by destruct (takesExtattr _ _).
Qed.

Lemma cacheWrites_reads es : forallb isRead es = true -> cacheWrites es = 0.
Proof.
  unfold cacheWrites. induction es as [|e es IH]; [done|].
  destruct e; cbn; try done; exact IH.
Qed.

(** The world after the registration step, as the caching part sees it. *)
Lemma handleApplication_live_parts w path :
  live w (canonicalPath (fs w) path) = true ->
  let c := canonicalPath (fs w) path in
  let w1 := after (_addApplication c w) in
  fs w1 = fs w /\ xattrs w1 = xattrs w /\
  filesystemSupportsExtattr w1 = filesystemSupportsExtattr w /\
  after (handleApplication path w) = after (cacheCapability c w1) /\
  calls (handleApplication path w) =
    calls (_addApplication c w) ++ calls (cacheCapability c w1).
Proof.
  intros Hlive. cbn zeta. rewrite (handleApplication_live_eq _ _ Hlive).
  generalize (canonicalPath (fs w) path) as c. intros c.
  destruct (storeOnly_addApplication c w) as (Hf & Hx & Hs & _).
  split; [done|]. split; [done|]. split; [done|].
  unfold bind, after, calls. destruct (_addApplication c w) as [[r w'] e1].
  cbn [fst snd]. by destruct (cacheCapability c w') as [[u w2] e2].
Qed.

(** A live path in one view: how many times the setter is called, and
    what the call leaves of the file system, the attributes and the
    member. *)
Lemma handleApplication_live_summary w path :
  live w (canonicalPath (fs w) path) = true ->
  let c := canonicalPath (fs w) path in
  let mime := toStd (result (getCanOpenFromFile c w)) in
  cacheWrites (calls (handleApplication path w)) = (if wantsWrite w c then 1 else 0) /\
  xattrs (after (handleApplication path w)) =
    (if wantsWrite w c && takesExtattr (fs w) c
     then <[(c, "can-open") := mime]> (xattrs w) else xattrs w) /\
  fs (after (handleApplication path w)) = fs w /\
  filesystemSupportsExtattr (after (handleApplication path w)) =
    filesystemSupportsExtattr w.
Proof.
  intros Hlive. cbn zeta.
  destruct (handleApplication_live_parts w path Hlive) as (Hf & Hx & Hs & -> & ->).
  set (c := canonicalPath (fs w) path) in *.
  set (w1 := after (_addApplication c w)) in *.
  destruct (getCanOpenFromFile_same w w1 c Hf Hx) as [Hres Hcalls].
  destruct (storeOnly_addApplication c w) as (_ & _ & _ & Hsql).
  apply cacheWrites_sqlOnly in Hsql.
  assert (cacheWrites (calls (getCanOpenFromFile c w)) = 0) as Hreads.
  { apply cacheWrites_reads, getCanOpenFromFile_calls. }
  rewrite cacheWrites_app, Hsql, cacheCapability_eq, Hs. unfold wantsWrite, marker in *.
  rewrite Hx. destruct (filesystemSupportsExtattr w); cbn [negb andb]; [|done].
  destruct (xattrs w !! (c, "can-open")) as [v|] eqn:Hm; [done|]. cbn zeta.
  rewrite Hres, Hcalls, Hf. rewrite bool_decide_eq_false_2 by by intros [? ?].
  cbn [negb andb].
  change (EvGetAttr c "can-open" :: calls (getCanOpenFromFile c w))
    with ([EvGetAttr c "can-open"] ++ calls (getCanOpenFromFile c w)).
  destruct (isEmpty _); cbn [negb].
  { change (calls (?a, ?b, ?e)) with e. by rewrite cacheWrites_app, Hreads. }
  destruct (takesExtattr (fs w) c); change (calls (?a, ?b, ?e)) with e;
    rewrite !cacheWrites_app, Hreads; done.
Qed.

(** X21.  On a live path with a non-empty canonical form, an existing
    table and an engine that takes the INSERT, the canonical path is
    registered after [handleApplication], whether it was before or not,
    and no other row is added or lost. *)
Theorem handleApplication_registers w path rows :
  live w (canonicalPath (fs w) path) = true ->
  canonicalPath (fs w) path <> EmptyString ->
  willing w = true ->
  table w = Some rows ->
  exists rows',
    table (after (handleApplication path w)) = Some rows' /\
    forall q, q ∈ rows' <-> q ∈ rows \/ q = canonicalPath (fs w) path.
Proof.
  intros Hlive Hne Hw Ht.
  destruct (handleApplication_live_parts w path Hlive) as (_ & _ & _ & -> & _).
  rewrite cacheCapability_table. set (c := canonicalPath (fs w) path) in *.
  rewrite addApplication_eq. apply String.eqb_neq in Hne. rewrite Hne, Hw, Ht.
  destruct (existsb _ _) eqn:Hin.
  - apply existsb_samePath in Hin. exists rows. split; [done|].
    intros q. split; [by left | by intros [?| ->]].
  - exists (rows ++ [c]). split; [done|].
    intros q. by rewrite elem_of_app, list_elem_of_singleton.
Qed.

(** X22.  When [filesystemSupportsExtattr] is false, [handleApplication]
    calls nothing but the SQL engine, for a live path as for a dead one:
    no attribute is read or written, no file is opened, and the attributes
    are left as they were. *)
Theorem handleApplication_without_extattr w path :
  filesystemSupportsExtattr w = false ->
  sqlOnly (calls (handleApplication path w)) = true /\
  xattrs (after (handleApplication path w)) = xattrs w.
Proof.
  intros Hflag. destruct (live w (canonicalPath (fs w) path)) eqn:Hlive.
  - destruct (handleApplication_live_parts w path Hlive) as (_ & Hx & Hs & -> & ->).
    rewrite cacheCapability_eq, Hs, Hflag. cbn. rewrite app_nil_r. split; [|done].
    by destruct (storeOnly_addApplication (canonicalPath (fs w) path) w) as (_ & _ & _ & ?).
  - destruct (handleApplication_dead_eq w path Hlive) as [-> ->].
    by destruct (storeOnly_removeApplicationQ (canonicalQString (canonicalPath (fs w) path)) w)
      as (_ & -> & _ & ->).
Qed.

(** X23.  On a live path, with extended attributes supported, no marker
    yet, a lookup that finds a non-empty capability and a file system that
    takes the attribute, [handleApplication] stores exactly what
    [getCanOpenFromFile] returns as the [can-open] marker of the canonical
    path, with one call of the setter. *)
Theorem handleApplication_caches w path :
  live w (canonicalPath (fs w) path) = true ->
  filesystemSupportsExtattr w = true ->
  marker w (canonicalPath (fs w) path) = None ->
  isEmpty (result (getCanOpenFromFile (canonicalPath (fs w) path) w)) = false ->
  takesExtattr (fs w) (canonicalPath (fs w) path) = true ->
  marker (after (handleApplication path w)) (canonicalPath (fs w) path) =
    Some (toStd (result (getCanOpenFromFile (canonicalPath (fs w) path) w))) /\
  cacheWrites (calls (handleApplication path w)) = 1.
Proof.
  intros Hlive Hflag Hm He Htakes.
  destruct (handleApplication_live_summary w path Hlive) as (-> & Hx & _).
  unfold wantsWrite, marker in *. rewrite Hx, Hflag, Hm, He, Htakes.
  rewrite bool_decide_eq_false_2 by by intros [? ?]. cbn [negb andb].
  by rewrite lookup_insert_eq.
Qed.

(** X24.  [handleApplication] calls the attribute setter at most once,
    and the attributes after the call are those before it, or those before
    it with a non-empty [can-open] marker added for a canonical path that
    had none: a marker is never overwritten, an empty one never written,
    no other attribute touched. *)
Theorem handleApplication_attribute_frame w path :
  cacheWrites (calls (handleApplication path w)) <= 1 /\
  (xattrs (after (handleApplication path w)) = xattrs w \/
   marker w (canonicalPath (fs w) path) = None /\
   exists v, v <> EmptyString /\
     xattrs (after (handleApplication path w)) =
       <[(canonicalPath (fs w) path, "can-open") := v]> (xattrs w)).
Proof.
  destruct (live w (canonicalPath (fs w) path)) eqn:Hlive.
  - destruct (handleApplication_live_summary w path Hlive) as (-> & -> & _).
    unfold wantsWrite.
    destruct (filesystemSupportsExtattr w); cbn [andb]; [|split; [lia | by left]].
    destruct (marker w _) as [v|] eqn:Hm.
    { rewrite bool_decide_eq_true_2 by by eexists. cbn. split; [lia | by left]. }
    rewrite bool_decide_eq_false_2 by by intros [? ?]. cbn [negb andb].
    destruct (isEmpty _) eqn:He; cbn [negb andb]; [split; [lia | by left]|].
    split; [lia|]. destruct (takesExtattr _ _); [|by left].
    right. split; [done|]. eexists. split; [|done]. by apply String.eqb_neq.
  - destruct (handleApplication_dead_eq w path Hlive) as [-> ->].
    destruct (storeOnly_removeApplicationQ (canonicalQString (canonicalPath (fs w) path)) w)
      as (_ & -> & _ & Hsql). rewrite (cacheWrites_sqlOnly _ Hsql). split; [lia | by left].
Qed.

(** X25.  On a file system that takes the attribute, a second
    [handleApplication] on the same path makes no call of the setter:
    whatever the first call found, it is not resolved again. *)
Theorem handleApplication_twice w path :
  takesExtattr (fs w) (canonicalPath (fs w) path) = true ->
  cacheWrites (calls (handleApplication path (after (handleApplication path w)))) = 0.
Proof.
  intros Htakes. set (c := canonicalPath (fs w) path) in *.
  destruct (live w c) eqn:Hlive.
  - destruct (handleApplication_live_summary w path Hlive) as (_ & Hx & Hf & Hs).
    fold c in Hx. set (w' := after (handleApplication path w)) in *.
    assert (live w' (canonicalPath (fs w') path) = true) as Hlive'.
    { unfold live. rewrite Hf. exact Hlive. }
    destruct (handleApplication_live_summary w' path Hlive') as (-> & _).
    rewrite Hf. fold c. unfold wantsWrite. rewrite Hs.
    destruct (filesystemSupportsExtattr w) eqn:Hflag; [|done]. cbn [andb].
    revert Hx. unfold wantsWrite. rewrite Hflag, Htakes. cbn [andb]. rewrite andb_true_r.
    destruct (marker w c) as [v|] eqn:Hm.
    { rewrite (bool_decide_eq_true_2 (is_Some (Some v))) by by eexists. cbn [negb andb].
      intros Hx. unfold marker in *. rewrite Hx, Hm.
      by rewrite bool_decide_eq_true_2 by by eexists. }
    rewrite (bool_decide_eq_false_2 (is_Some None)) by by intros [? ?]. cbn [negb andb].
    destruct (isEmpty (result (getCanOpenFromFile c w))) eqn:He; cbn [negb].
    + intros Hx. unfold marker in *. rewrite Hx, Hm.
      destruct (getCanOpenFromFile_same w w' c Hf Hx) as [-> _]. rewrite He.
      cbn [negb]. by rewrite andb_false_r.
    + intros Hx. unfold marker. rewrite Hx, lookup_insert_eq.
      by rewrite bool_decide_eq_true_2 by by eexists.
  - destruct (handleApplication_dead_eq w path Hlive) as [Ha _]. fold c in Ha.
    destruct (storeOnly_removeApplicationQ (canonicalQString c) w) as (Hf & _ & _ & _). rewrite <- Ha in Hf.
    set (w' := after (handleApplication path w)) in *.
    assert (live w' (canonicalPath (fs w') path) = false) as Hdead'.
    { unfold live. rewrite Hf. exact Hlive. }
    destruct (handleApplication_dead_eq w' path Hdead') as [_ ->].
    apply cacheWrites_sqlOnly.
    by destruct (storeOnly_removeApplicationQ (canonicalQString (canonicalPath (fs w') path)) w')
      as (_ & _ & _ & ?).
Qed.

(** * The further properties on the small disk *)

Lemma addApplication_inserts_witness :
  let w := world (Some ["/a/x.desktop"]) [] ∅ in
  result (_addApplication "/a/y.app" w) = true /\
  table (after (_addApplication "/a/y.app" w)) = Some ["/a/x.desktop"; "/a/y.app"] /\
  exists rows rows',
    table w = Some rows /\ table (after (_addApplication "/a/y.app" w)) = Some rows' /\
    length rows' = S (length rows) /\
    forall q, q ∈ rows' <-> q ∈ rows \/ q = "/a/y.app".
Proof.
  intros w. assert (result (_addApplication "/a/y.app" w) = true) as H by run.
  split; [exact H|]. split; [run|]. exact (addApplication_inserts w "/a/y.app" H).
Defined.

Lemma addApplication_fails_unchanged_witness :
  let w := world (Some ["/a/x.desktop"]) [] ∅ in
  result (_addApplication "/a/x.desktop" w) = false /\
  result (_addApplication EmptyString w) = false /\
  table (after (_addApplication "/a/x.desktop" w)) = table w /\
  table (after (_addApplication EmptyString w)) = table w.
Proof.
  intros w.
  assert (result (_addApplication "/a/x.desktop" w) = false) as H1 by run.
  assert (result (_addApplication EmptyString w) = false) as H2 by run.
  split; [exact H1|]. split; [exact H2|].
  split; [exact (proj1 (addApplication_fails_unchanged w "/a/x.desktop" H1)) |
          exact (proj1 (addApplication_fails_unchanged w EmptyString H2))].
Defined.

Lemma add_then_exists_witness :
  let w := world (Some []) [] ∅ in
  result (_addApplication "/a/y.app" w) = true /\
  willing (after (_addApplication "/a/y.app" w)) = true /\
  result (applicationExists "/a/y.app" (after (_addApplication "/a/y.app" w))) = true.
Proof.
  intros w.
  assert (result (_addApplication "/a/y.app" w) = true) as H by run.
  assert (willing (after (_addApplication "/a/y.app" w)) = true) as Hw by run.
  split; [exact H|]. split; [exact Hw|]. exact (add_then_exists w "/a/y.app" H Hw).
Defined.

Lemma removeApplication_deletes_witness :
  let w := world (Some ["/a/x.desktop"; "/a/y.app"; "/a/z"]) [] ∅ in
  result (_removeApplication "/a/y.app" w) = true /\
  table (after (_removeApplication "/a/y.app" w)) = Some ["/a/x.desktop"; "/a/z"] /\
  exists rows rows',
    table w = Some rows /\ table (after (_removeApplication "/a/y.app" w)) = Some rows' /\
    rows' = List.filter (fun row => negb (String.eqb row "/a/y.app")) rows /\
    forall q, q ∈ rows' <-> q ∈ rows /\ q <> "/a/y.app".
Proof.
  intros w. assert (result (_removeApplication "/a/y.app" w) = true) as H by run.
  split; [exact H|]. split; [run|]. exact (removeApplication_deletes w "/a/y.app" H).
Defined.

Lemma removeApplication_fails_unchanged_witness :
  let w := world (Some ["/a/x.desktop"]) [] ∅ in
  result (_removeApplication "/a/z" w) = false /\
  table (after (_removeApplication "/a/z" w)) = table w.
Proof.
  intros w. assert (result (_removeApplication "/a/z" w) = false) as H by run.
  split; [exact H|]. exact (removeApplication_fails_unchanged w "/a/z" H).
Defined.

Lemma add_then_remove_restores_witness :
  let w := world (Some ["/a/x.desktop"; "/a/z"]) [] ∅ in
  result (_addApplication "/a/y.app" w) = true /\
  result (_removeApplication "/a/y.app" (after (_addApplication "/a/y.app" w))) = true /\
  table (after (_removeApplication "/a/y.app" (after (_addApplication "/a/y.app" w))))
    = table w.
Proof.
  intros w.
  assert (result (_addApplication "/a/y.app" w) = true) as H1 by run.
  assert (result (_removeApplication "/a/y.app" (after (_addApplication "/a/y.app" w)))
          = true) as H2 by run.
  split; [exact H1|]. split; [exact H2|].
  exact (add_then_remove_restores w "/a/y.app" H1 H2).
Defined.

Lemma removeAll_then_empty_witness :
  let w := world (Some ["/a/x.desktop"; "/a/y.app"]) [true; false] ∅ in
  result (removeAllApplications w) = true /\
  table (after (removeAllApplications w)) = Some [] /\
  result (allApplications (after (removeAllApplications w))) = [] /\
  (_numberOfApplications (after (removeAllApplications w))).1 = 0%N /\
  result (applicationExists "/a/y.app" (after (removeAllApplications w))) = false.
Proof.
  intros w. assert (result (removeAllApplications w) = true) as H by run.
  destruct (removeAll_then_empty w H) as (Ht & Hall & Hn & Hex).
  split; [exact H|]. split; [exact Ht|]. split; [exact Hall|]. split; [exact Hn|].
  exact (Hex "/a/y.app").
Defined.

Lemma numberOfApplications_counts_witness :
  let rows := ["/a/x.desktop"; "/a/y.app"] in
  let w := world (Some rows) [] ∅ in
  willing w = true /\ table w = Some rows /\
  (N.of_nat (length rows) < 2 ^ 32)%N /\
  (_numberOfApplications w).1 = 2%N.
Proof.
  intros rows w.
  assert (willing w = true) as Hw by run.
  assert (table w = Some rows) as Ht by run.
  assert (N.of_nat (length rows) < 2 ^ 32)%N as Hlt by run.
  split; [exact Hw|]. split; [exact Ht|]. split; [exact Hlt|].
  exact (proj1 (numberOfApplications_counts w rows Hw Ht Hlt)).
Defined.

Lemma numberOfApplications_after_add_witness :
  let rows := ["/a/x.desktop"] in
  let w := world (Some rows) [] ∅ in
  table w = Some rows /\
  (N.of_nat (S (length rows)) < 2 ^ 32)%N /\
  result (_addApplication "/a/y.app" w) = true /\
  willing (after (_addApplication "/a/y.app" w)) = true /\
  (_numberOfApplications (after (_addApplication "/a/y.app" w))).1 = 2%N.
Proof.
  intros rows w.
  assert (table w = Some rows) as Ht by run.
  assert (N.of_nat (S (length rows)) < 2 ^ 32)%N as Hlt by run.
  assert (result (_addApplication "/a/y.app" w) = true) as H by run.
  assert (willing (after (_addApplication "/a/y.app" w)) = true) as Hw by run.
  split; [exact Ht|]. split; [exact Hlt|]. split; [exact H|]. split; [exact Hw|].
  exact (numberOfApplications_after_add w "/a/y.app" rows Ht Hlt H Hw).
Defined.

Lemma numberOfApplications_failure_witness :
  let w := world (Some ["/a/x.desktop"; "/a/y.app"]) [false] ∅ in
  willing w = false /\
  (_numberOfApplications w).1 = 0%N /\
  table (_numberOfApplications w).2 = table w.
Proof.
  intros w. assert (willing w = false) as Hw by run.
  split; [exact Hw|]. exact (numberOfApplications_failure w (or_introl Hw)).
Defined.

Lemma createTable_keeps_rows_witness :
  let rows := ["/a/x.desktop"; "/a/y.app"] in
  let w := world (Some rows) [] ∅ in
  table w = Some rows /\
  table (after (_createTable w)) = Some rows /\
  calls (_createTable w) = [EvSql Sql.CreateTable false].
Proof.
  intros rows w. assert (table w = Some rows) as Ht by run.
  split; [exact Ht|]. exact (createTable_keeps_rows w rows Ht).
Defined.

Lemma createTable_creates_witness :
  let w := world None [] ∅ in
  table w = None /\ willing w = true /\
  table (after (_createTable w)) = Some [] /\
  result (applicationExists "/a/y.app" (after (_createTable w))) = false.
Proof.
  intros w.
  assert (table w = None) as Ht by run. assert (willing w = true) as Hw by run.
  destruct (createTable_creates w Ht Hw) as [Hempty Hex].
  split; [exact Ht|]. split; [exact Hw|]. split; [exact Hempty|]. exact (Hex "/a/y.app").
Defined.

Lemma applicationExists_executed_witness :
  let rows := ["/a/x.desktop"; "/a/y.app"] in
  let w := world (Some rows) [] ∅ in
  willing w = true /\ table w = Some rows /\
  result (applicationExists "/a/y.app" w) = true /\
  ("/a/y.app" ∈ rows) /\
  table (after (applicationExists "/a/y.app" w)) = Some rows.
Proof.
  intros rows w.
  assert (willing w = true) as Hw by run.
  assert (table w = Some rows) as Ht by run.
  assert (result (applicationExists "/a/y.app" w) = true) as H by run.
  destruct (applicationExists_executed w "/a/y.app" rows Hw Ht) as [Hiff Hkept].
  split; [exact Hw|]. split; [exact Ht|]. split; [exact H|].
  split; [exact (proj1 Hiff H) | exact Hkept].
Defined.

Lemma allApplications_no_duplicates_witness :
  let w := world (Some ["/a/x.desktop"; "/a/y.app"]) [true; false] ∅ in
  uniquePaths w /\
  result (allApplications w) = ["/a/y.app"] /\
  NoDup (result (allApplications w)).
Proof.
  intros w.
  assert (uniquePaths w) as Hu.
  { intros rows Hrows. injection Hrows as <-.
    apply NoDup_cons. split; [|apply NoDup_singleton].
    intros Hin. apply list_elem_of_singleton in Hin. discriminate Hin. }
  split; [exact Hu|]. split; [run|]. exact (allApplications_no_duplicates w Hu).
Defined.

Lemma getCanOpenFromFile_desktop_no_trailing_space_witness :
  let w := world (Some []) [] ∅ in
  endsDesktop "/a/v.desktop" = true /\
  marker w "/a/v.desktop" = None /\
  last (Text.chars (toStd (result (getCanOpenFromFile "/a/v.desktop" w)))) = Some ";"%char /\
  Text.isSpace ";" = false.
Proof.
  intros w.
  assert (endsDesktop "/a/v.desktop" = true) as Hd by run.
  assert (marker w "/a/v.desktop" = None) as Hm by run.
  assert (last (Text.chars (toStd (result (getCanOpenFromFile "/a/v.desktop" w))))
          = Some ";"%char) as Hl by run.
  split; [exact Hd|]. split; [exact Hm|]. split; [exact Hl|].
  exact (getCanOpenFromFile_desktop_no_trailing_space w "/a/v.desktop" ";" Hd Hm Hl).
Defined.

Lemma handleApplication_registers_witness :
  let rows := ["/a/x.desktop"] in
  let w := world (Some rows) [] ∅ in
  live w (canonicalPath (fs w) "/a/y.app") = true /\
  canonicalPath (fs w) "/a/y.app" <> EmptyString /\
  willing w = true /\ table w = Some rows /\
  table (after (handleApplication "/a/y.app" w)) = Some ["/a/x.desktop"; "/a/y.app"] /\
  exists rows',
    table (after (handleApplication "/a/y.app" w)) = Some rows' /\
    forall q, q ∈ rows' <-> q ∈ rows \/ q = canonicalPath (fs w) "/a/y.app".
Proof.
  intros rows w.
  assert (live w (canonicalPath (fs w) "/a/y.app") = true) as Hlive by run.
  assert (canonicalPath (fs w) "/a/y.app" <> EmptyString) as Hne by (vm_compute; discriminate).
  assert (willing w = true) as Hw by run.
  assert (table w = Some rows) as Ht by run.
  split; [exact Hlive|]. split; [exact Hne|]. split; [exact Hw|]. split; [exact Ht|].
  split; [run|]. exact (handleApplication_registers w "/a/y.app" rows Hlive Hne Hw Ht).
Defined.

Lemma handleApplication_without_extattr_witness :
  let w := {| fs := disk; table := Some []; backend := []; xattrs := ∅;
              filesystemSupportsExtattr := false |} in
  filesystemSupportsExtattr w = false /\
  calls (handleApplication "/a/y.app" w) = [EvSql (Sql.Insert "/a/y.app") true] /\
  sqlOnly (calls (handleApplication "/a/y.app" w)) = true /\
  xattrs (after (handleApplication "/a/y.app" w)) = xattrs w.
Proof.
  intros w. assert (filesystemSupportsExtattr w = false) as H by run.
  split; [exact H|]. split; [run|]. exact (handleApplication_without_extattr w "/a/y.app" H).
Defined.

Lemma handleApplication_caches_witness :
  let w := world (Some []) [] ∅ in
  live w (canonicalPath (fs w) "/a/y.app") = true /\
  filesystemSupportsExtattr w = true /\
  marker w (canonicalPath (fs w) "/a/y.app") = None /\
  isEmpty (result (getCanOpenFromFile (canonicalPath (fs w) "/a/y.app") w)) = false /\
  takesExtattr (fs w) (canonicalPath (fs w) "/a/y.app") = true /\
  toStd (result (getCanOpenFromFile (canonicalPath (fs w) "/a/y.app") w)) =
    "text/plain" +:+ nl /\
  marker (after (handleApplication "/a/y.app" w)) (canonicalPath (fs w) "/a/y.app") =
    Some (toStd (result (getCanOpenFromFile (canonicalPath (fs w) "/a/y.app") w))) /\
  cacheWrites (calls (handleApplication "/a/y.app" w)) = 1.
Proof.
  intros w.
  assert (live w (canonicalPath (fs w) "/a/y.app") = true) as Hlive by run.
  assert (filesystemSupportsExtattr w = true) as Hflag by run.
  assert (marker w (canonicalPath (fs w) "/a/y.app") = None) as Hm by run.
  assert (isEmpty (result (getCanOpenFromFile (canonicalPath (fs w) "/a/y.app") w)) = false)
    as He by run.
  assert (takesExtattr (fs w) (canonicalPath (fs w) "/a/y.app") = true) as Ht by run.
  split; [exact Hlive|]. split; [exact Hflag|]. split; [exact Hm|]. split; [exact He|].
  split; [exact Ht|]. split; [run|].
  exact (handleApplication_caches w "/a/y.app" Hlive Hflag Hm He Ht).
Defined.

Lemma handleApplication_twice_witness :
  let w := world (Some []) [] ∅ in
  takesExtattr (fs w) (canonicalPath (fs w) "/a/x.desktop") = true /\
  cacheWrites (calls (handleApplication "/a/x.desktop" w)) = 1 /\
  cacheWrites (calls (handleApplication "/a/x.desktop"
                        (after (handleApplication "/a/x.desktop" w)))) = 0.
Proof.
  intros w.
  assert (takesExtattr (fs w) (canonicalPath (fs w) "/a/x.desktop") = true) as Ht by run.
  split; [exact Ht|]. split; [run|]. exact (handleApplication_twice w "/a/x.desktop" Ht).
Defined.
